(** * NMC estimation of the background error covariance

    A shallow embedding of [nmc] and [iterative_nmc] (nmc.py) and the
    properties of the two functions.

    Numbers.  Python floats and numpy [float64] entries are IEEE-754 binary64
    values.  The code is written once over the interface [Scalar] and read at
    two instances: [float] (Rocq's primitive binary64, the arithmetic that
    actually runs) and [Q] (exact rationals, the arithmetic in which the
    algebraic laws of the method are usually stated).

    Arrays.  A 1-d array is a list, a 2-d array the list of its rows, the 3-d
    array [result] the list of its 2-d slices.  Arrays are rectangular and a
    2-d array has at least one row.

    Effects.  The global generator behind [np.random.randn] is a fixed
    sequence [gauss] of samples together with the number of samples already
    drawn; every draw, model call, [set_params] and [cycle] is appended to a
    trace, so that "before any model call" is a statement on the trace. *)

From Stdlib Require Import ZArith List Bool Lia QArith Qround Floats.
Import ListNotations.
Set Warnings "-inexact-float".
Local Open Scope Z_scope.

(** ** Exceptions and the error monad *)

(** What a caller can observe when a call does not return: the built-in
    exceptions that the interpreter and numpy raise in these two functions,
    and the three conditions of the error-handling design, for which the
    source has no [raise] statement. *)
Inductive exn : Type :=
| ZeroDivisionError
| ValueError
| IndexError
| OverflowError
| InvalidParameter
| InsufficientData
| InsufficientIterations.

Inductive outcome (A : Type) : Type :=
| Ok (a : A)
| Raise (e : exn).

Arguments Ok {A} a.
Arguments Raise {A} e.

Definition rbind {A B : Type} (r : outcome A) (k : A -> outcome B) : outcome B :=
  match r with
  | Ok a => k a
  | Raise e => Raise e
  end.

Notation "'let?' x ':=' e 'in' k" := (rbind e (fun x => k))
  (at level 10, x pattern, e at level 100, k at level 200).

Fixpoint mapR {A B : Type} (f : A -> outcome B) (l : list A) : outcome (list B) :=
  match l with
  | [] => Ok []
  | a :: l' => let? b := f a in let? bs := mapR f l' in Ok (b :: bs)
  end.

(** ** Scalars *)

(** Outcome of converting a float to an integer: [int(x)] and numpy's length
    computation both refuse infinities and NaN. *)
Inductive int_conv : Type :=
| IntOk (z : Z)
| IntInf
| IntNaN.

Definition py_int_of (c : int_conv) : outcome Z :=
  match c with
  | IntOk z => Ok z
  | IntInf => Raise OverflowError
  | IntNaN => Raise ValueError
  end.

Class Scalar (T : Type) : Type := {
  of_int : Z -> T;              (* a Python int used as a float *)
  fadd : T -> T -> T;
  fsub : T -> T -> T;
  fmul : T -> T -> T;
  fdiv : T -> T -> T;           (* numpy's division: never raises *)
  fgtb : T -> T -> bool;        (* [a > b] *)
  fis_zero : T -> bool;         (* [b == 0], the test behind ZeroDivisionError *)
  ftrunc : T -> int_conv;       (* rounding towards zero, as [int(x)] *)
  fceil : T -> int_conv         (* rounding up, as numpy's length of a range *)
}.

(** *** binary64 *)

Definition Z2float (z : Z) : float :=
  SF2Prim (binary_normalize prec emax z 0 false).

Definition float_gtb (a b : float) : bool := PrimFloat.ltb b a.

Definition float_is_zero (a : float) : bool := PrimFloat.eqb a 0%float.

Definition SFtrunc (x : spec_float) : int_conv :=
  match x with
  | S754_zero _ => IntOk 0
  | S754_infinity _ => IntInf
  | S754_nan => IntNaN
  | S754_finite s m e =>
      IntOk (cond_Zopp s (if 0 <=? e then Z.pos m * 2 ^ e else Z.pos m / 2 ^ (- e)))
  end.

Definition SFceil (x : spec_float) : int_conv :=
  match x with
  | S754_zero _ => IntOk 0
  | S754_infinity _ => IntInf
  | S754_nan => IntNaN
  | S754_finite s m e =>
      IntOk (if 0 <=? e then cond_Zopp s (Z.pos m * 2 ^ e)
             else if s then - (Z.pos m / 2 ^ (- e))
                  else - ((- Z.pos m) / 2 ^ (- e)))
  end.

#[export] Instance float_scalar : Scalar float := {|
  of_int := Z2float;
  fadd := PrimFloat.add;
  fsub := PrimFloat.sub;
  fmul := PrimFloat.mul;
  fdiv := PrimFloat.div;
  fgtb := float_gtb;
  fis_zero := float_is_zero;
  ftrunc := fun x => SFtrunc (Prim2SF x);
  fceil := fun x => SFceil (Prim2SF x)
|}.

(** *** Exact rationals.  [Qdiv] by zero is [0]: this instance has no NaN and
    is only read where the divisor is not zero. *)

Definition Q_gtb (a b : Q) : bool := negb (Qle_bool a b).

Definition Q_is_zero (a : Q) : bool := Qeq_bool a 0%Q.

Definition Qtrunc (a : Q) : int_conv := IntOk (Z.quot (Qnum a) (Z.pos (Qden a))).

Definition Qceil_conv (a : Q) : int_conv := IntOk (- ((- Qnum a) / Z.pos (Qden a))).

#[export] Instance Q_scalar : Scalar Q := {|
  of_int := inject_Z;
  fadd := Qplus;
  fsub := Qminus;
  fmul := Qmult;
  fdiv := Qdiv;
  fgtb := Q_gtb;
  fis_zero := Q_is_zero;
  ftrunc := Qtrunc;
  fceil := Qceil_conv
|}.

(** ** Python integers and floats *)

Section Python.
Context {T : Type} `{Scalar T}.

(** [a / b] on Python floats. *)
Definition py_truediv (a b : T) : outcome T :=
  if fis_zero b then Raise ZeroDivisionError else Ok (fdiv a b).

(** [a // b] on Python ints: floor division. *)
Definition py_floordiv (a b : Z) : outcome Z :=
  if b =? 0 then Raise ZeroDivisionError else Ok (a / b).

(** [int(x)]. *)
Definition py_int (x : T) : outcome Z := py_int_of (ftrunc x).

(** [range(n)]. *)
Definition range (n : Z) : list Z := map Z.of_nat (seq 0 (Z.to_nat n)).

(** An index [k] into an axis of length [len]; negative indices count from
    the end. *)
Definition py_index (len : nat) (k : Z) : outcome nat :=
  if (0 <=? k) && (k <? Z.of_nat len) then Ok (Z.to_nat k)
  else if (- Z.of_nat len <=? k) && (k <? 0) then Ok (Z.to_nat (Z.of_nat len + k))
  else Raise IndexError.

End Python.

(** ** numpy arrays *)

Section Arrays.
Context {T : Type} `{Scalar T}.

Definition zero : T := of_int 0.

Definition nrows (m : list (list T)) : nat := length m.

Definition ncols (m : list (list T)) : nat := length (hd [] m).

(** [np.zeros((r, c))]. *)
Definition zeros (r c : nat) : list (list T) := repeat (repeat zero c) r.

(** [np.zeros((n, r, c))]: refused when a dimension is negative. *)
Definition np_zeros3 (n : Z) (r : nat) (c : Z) : outcome (list (list (list T))) :=
  if (n <? 0) || (c <? 0) then Raise ValueError
  else Ok (repeat (zeros r (Z.to_nat c)) (Z.to_nat n)).

(** [m[:, k]]. *)
Definition col (k : Z) (m : list (list T)) : outcome (list T) :=
  let? j := py_index (ncols m) k in
  Ok (map (fun row => nth j row zero) m).

Fixpoint zip_with (f : T -> T -> T) (u v : list T) : list T :=
  match u, v with
  | a :: u', b :: v' => f a b :: zip_with f u' v'
  | _, _ => []
  end.

Definition vadd (u v : list T) : list T := zip_with fadd u v.

Definition vsub (u v : list T) : list T := zip_with fsub u v.

(** [v * s] for a scalar [s]. *)
Definition vscale (v : list T) (s : T) : list T := map (fun x => fmul x s) v.

(** [d @ d.T] for a column [d]. *)
Definition outer (d : list T) : list (list T) :=
  map (fun a => map (fun b => fmul a b) d) d.

Fixpoint madd (a b : list (list T)) : list (list T) :=
  match a, b with
  | u :: a', v :: b' => vadd u v :: madd a' b'
  | _, _ => []
  end.

(** [alpha * m]. *)
Definition mscale (alpha : T) (m : list (list T)) : list (list T) :=
  map (map (fun x => fmul alpha x)) m.

(** [m / d]. *)
Definition mdiv (m : list (list T)) (d : T) : list (list T) :=
  map (map (fun x => fdiv x d)) m.

(** Broadcasting of a 2-d array to the shape [(r, c)]: an axis must have the
    wanted length or length one. *)
Definition broadcast_row (c : nat) (row : list T) : outcome (list T) :=
  if Nat.eqb (length row) c then Ok row
  else match row with
       | [x] => Ok (repeat x c)
       | _ => Raise ValueError
       end.

Definition broadcast_to (r c : nat) (m : list (list T)) : outcome (list (list T)) :=
  let? rows := mapR (broadcast_row c) m in
  if Nat.eqb (length rows) r then Ok rows
  else match rows with
       | [row] => Ok (repeat row r)
       | _ => Raise ValueError
       end.

(** [a += b]: [b] is broadcast to the shape of [a]. *)
Definition iadd (a b : list (list T)) : outcome (list (list T)) :=
  let? b' := broadcast_to (nrows a) (ncols a) b in
  Ok (madd a b').

(** [v.mean()]: the sum of the entries over their number.  numpy adds long
    vectors pairwise; the order only changes the rounding of the sum. *)
Definition np_mean (v : list T) : T :=
  fdiv (fold_left fadd v zero) (of_int (Z.of_nat (length v))).

(** [np.arange(start, stop, step)]: [ceil((stop - start) / step)] points
    [start + i * delta]. *)
Definition arange_item (start step : T) (i : nat) : T :=
  match i with
  | O => start
  | S O => fadd start step
  | _ => fadd start (fmul (of_int (Z.of_nat i)) (fsub (fadd start step) start))
  end.

Definition np_arange (start stop step : T) : outcome (list T) :=
  let? q := py_truediv (fsub stop start) step in
  let? n := py_int_of (fceil q) in
  Ok (map (arange_item start step) (seq 0 (Z.to_nat n))).

End Arrays.

(** [l[i] = x] on a list. *)
Fixpoint list_set {A : Type} (i : nat) (x : A) (l : list A) : list A :=
  match l, i with
  | [], _ => []
  | _ :: l', O => x :: l'
  | a :: l', S i' => a :: list_set i' x l'
  end.

Definition set_item {A : Type} (i : Z) (x : A) (l : list A) : outcome (list A) :=
  let? j := py_index (length l) i in
  Ok (list_set j x l).

(** ** Effects: random draws, collaborator calls and their trace *)

Inductive event (T : Type) : Type :=
| EvRandn (n : nat)                       (* np.random.randn(n) *)
| EvModel (x0 ts : list T)                (* model(x0, ts) *)
| EvSetParams (Pb : list (list T))        (* assim.set_params(Pb=Pb) *)
| EvCycle.                                (* assim.cycle() *)

Arguments EvRandn {T} n.
Arguments EvModel {T} x0 ts.
Arguments EvSetParams {T} Pb.
Arguments EvCycle {T}.

Record world (T : Type) : Type := {
  drawn : nat;                (* samples already taken from the generator *)
  trace : list (event T)
}.

Arguments drawn {T} w.
Arguments trace {T} w.

Definition log {T : Type} (e : event T) (w : world T) : world T :=
  {| drawn := drawn w; trace := trace w ++ [e] |}.

(** A computation that may raise and that changes the world; what was done
    before an exception stays done. *)
Definition M (T A : Type) : Type := world T -> outcome A * world T.

Definition ret {T A : Type} (a : A) : M T A := fun w => (Ok a, w).

Definition bind {T A B : Type} (m : M T A) (k : A -> M T B) : M T B :=
  fun w =>
    match m w with
    | (Ok a, w') => k a w'
    | (Raise e, w') => (Raise e, w')
    end.

Definition lift {T A : Type} (r : outcome A) : M T A := fun w => (r, w).

Notation "x <- m ;; k" := (bind m (fun x => k))
  (at level 61, m at next level, right associativity).

Notation "' p <- m ;; k" := (bind m (fun x => match x with p => k end))
  (at level 61, p pattern, m at next level, right associativity).

(** [for i in l: s = body(i, s)]. *)
Fixpoint foldM {T I S : Type} (body : I -> S -> M T S) (l : list I) (s : S) : M T S :=
  match l with
  | [] => ret s
  | i :: l' => s' <- body i s ;; foldM body l' s'
  end.

(** ** nmc *)

Section NMC.
Context {T : Type} `{Scalar T}.

(** The samples the generator delivers, in order. *)
Variable gauss : nat -> T.

Definition randn (n : nat) : M T (list T) :=
  fun w =>
    (Ok (map gauss (seq (drawn w) n)),
     {| drawn := (drawn w + n)%nat; trace := trace w ++ [EvRandn n] |}).

Definition call_model (model : list T -> list T -> list (list T)) (x0 ts : list T)
  : M T (list (list T)) :=
  fun w => (Ok (model x0 ts), log (EvModel x0 ts) w).

(** Lines 38-41: [t1_nstep] and [num]. *)
Definition nmc_steps (ref : list (list T)) (dt t1 : T) : outcome (Z * Z) :=
  let length := ncols ref in
  let? x0 := col 0 ref in
  let? q := py_truediv t1 dt in
  let? t1_nstep := py_int q in
  let? d := py_floordiv (Z.of_nat length) t1_nstep in
  Ok (t1_nstep, d - 1).

(** Lines 45-50: the body of the forecast loop. *)
Definition forecast_body (model : list T -> list T -> list (list T))
  (ref : list (list T)) (dt : T) (ndim : nat) (t1_nstep : Z)
  (i : Z) (result : list (list (list T))) : M T (list (list (list T))) :=
  let idx := i * t1_nstep in
  c <- lift (col idx ref) ;;
  let scale := np_mean c in
  z <- randn ndim ;;
  let x0 := vadd c (vscale z scale) in
  ts <- lift (np_arange zero (fmul (of_int (2 * t1_nstep)) dt) dt) ;;
  x_forecast <- call_model model x0 ts ;;
  seg <- lift (broadcast_to ndim (Z.to_nat (2 * t1_nstep)) x_forecast) ;;
  lift (set_item i seg result).

(** Lines 52-57: the short-lag and long-lag state of every segment. *)
Definition lag_states (t1_nstep : Z) (result : list (list (list T)))
  : outcome (list (list T * list T)) :=
  mapR (fun xfcst =>
          let? xshort := col (t1_nstep - 1) xfcst in
          let? xlong := col (2 * t1_nstep - 1) xfcst in
          Ok (xshort, xlong)) result.

(** Line 60: [zip(xfcst_short[1:], xfcst_long[:-1])]. *)
Definition lag_pairs (states : list (list T * list T)) : list (list T * list T) :=
  combine (tl (map fst states)) (removelast (map snd states)).

(** Lines 59-65: the accumulation of the outer products. *)
Definition accumulate (ndim : nat) (pairs : list (list T * list T)) : list (list T) :=
  fold_left
    (fun Pb p => let xshort := fst p in
                 let xlong := snd p in
                 madd Pb (outer (vsub xlong xshort)))
    pairs (zeros ndim ndim).

Definition nmc (model : list T -> list T -> list (list T))
  (ref : list (list T)) (dt t1 alpha : T) : M T (list (list T)) :=
  let ndim := nrows ref in
  ' (t1_nstep, num) <- lift (nmc_steps ref dt t1) ;;
  result0 <- lift (np_zeros3 num ndim (2 * t1_nstep)) ;;
  result <- foldM (forecast_body model ref dt ndim t1_nstep) (range num) result0 ;;
  states <- lift (lag_states t1_nstep result) ;;
  let Pb := accumulate ndim (lag_pairs states) in
  ret (mdiv (mscale alpha Pb) (of_int (num - 1))).

(** ** iterative_nmc *)

(** The assimilation object: [A] is its state, the fields are what the loop
    uses of it. *)
Record Assim (A : Type) : Type := {
  assim_model : A -> list T -> list T -> list (list T);
  assim_dt : A -> T;
  set_params : list (list T) -> A -> A;
  cycle : A -> A;
  analysis : A -> list (list T)
}.

Arguments assim_model {A} a.
Arguments assim_dt {A} a.
Arguments set_params {A} a.
Arguments cycle {A} a.
Arguments analysis {A} a.

Record loop_state (A : Type) : Type := {
  ls_assim : A;
  ls_Pb : list (list T);
  ls_Pb_result : list (list T);
  ls_count : Z
}.

Arguments ls_assim {A} l.
Arguments ls_Pb {A} l.
Arguments ls_Pb_result {A} l.
Arguments ls_count {A} l.

Definition do_set_params {A : Type} (ops : Assim A) (Pb : list (list T)) (a : A) : M T A :=
  fun w => (Ok (set_params ops Pb a), log (EvSetParams Pb) w).

Definition do_cycle {A : Type} (ops : Assim A) (a : A) : M T A :=
  fun w => (Ok (cycle ops a), log EvCycle w).

(** Lines 125-132: the body of the refinement loop. *)
Definition iter_body {A : Type} (ops : Assim A)
  (model : list T -> list T -> list (list T)) (dt : T) (niter : Z) (mean_ratio : T)
  (i : Z) (s : loop_state A) : M T (loop_state A) :=
  a1 <- do_set_params ops (ls_Pb s) (ls_assim s) ;;
  a2 <- do_cycle ops a1 ;;
  let ref := analysis ops a2 in
  Pb <- nmc model ref dt (fmul (of_int 10) dt) (of_int 1) ;;
  q <- lift (py_truediv (of_int i) (of_int niter)) ;;
  if fgtb q mean_ratio then
    Pb_result <- lift (iadd (ls_Pb_result s) Pb) ;;
    ret {| ls_assim := a2; ls_Pb := Pb; ls_Pb_result := Pb_result;
           ls_count := ls_count s + 1 |}
  else
    ret {| ls_assim := a2; ls_Pb := Pb; ls_Pb_result := ls_Pb_result s;
           ls_count := ls_count s |}.

(** Lines 115-123: the state before the first iteration. *)
Definition iter_init {A : Type} (a : A) (R : list (list T)) (Pb_ini : option (list (list T)))
  : loop_state A :=
  let Pb_ini := match Pb_ini with None => R | Some p => p end in
  let Pb := Pb_ini in
  {| ls_assim := a; ls_Pb := Pb; ls_Pb_result := zeros (nrows Pb) (ncols Pb);
     ls_count := 0 |}.

(** Lines 124-132: the loop; the state it returns holds the object as the
    call leaves it. *)
Definition iter_loop {A : Type} (ops : Assim A) (a : A) (R : list (list T))
  (Pb_ini : option (list (list T))) (niter : Z) (mean_ratio : T) : M T (loop_state A) :=
  let model := assim_model ops a in
  let dt := assim_dt ops a in
  foldM (iter_body ops model dt niter mean_ratio) (range niter) (iter_init a R Pb_ini).

Definition iterative_nmc {A : Type} (ops : Assim A) (a : A) (R : list (list T))
  (Pb_ini : option (list (list T))) (niter : Z) (mean_ratio : T) : M T (list (list T)) :=
  s <- iter_loop ops a R Pb_ini niter mean_ratio ;;
  ret (mdiv (ls_Pb_result s) (of_int (ls_count s))).

End NMC.

Arguments Assim T A : clear implicits.
Arguments Build_Assim {T A} _ _ _ _ _.
Arguments assim_model {T A} a.
Arguments assim_dt {T A} a.
Arguments set_params {T A} a.
Arguments cycle {T A} a.
Arguments analysis {T A} a.
Arguments loop_state T A : clear implicits.
Arguments Build_loop_state {T A} _ _ _ _.
Arguments ls_assim {T A} l.
Arguments ls_Pb {T A} l.
Arguments ls_Pb_result {T A} l.
Arguments ls_count {T A} l.

(** ** The estimate in closed form

    The sentences of the method, written over the segments themselves:
    segment [i] is the forecast from the [i]-th perturbed reference state,
    the lag difference [i] is segment [i] at the long lag minus segment
    [i+1] at the short lag, and the estimate is [alpha] times the sum of the
    outer products of the lag differences over [num - 1]. *)

Section Closed_form.
Context {T : Type} `{Scalar T}.
Variable gauss : nat -> T.
Variable model : list T -> list T -> list (list T).
Variable ref : list (list T).
Variable t1_nstep : Z.
Variable ts : list T.
Variable drawn0 : nat.

(** The state of a trajectory at time index [k] (the column [k]). *)
Definition state_at (k : nat) (m : list (list T)) : list T :=
  map (fun row => nth k row zero) m.

(** The initial state of forecast [i]: the reference state at index
    [i * t1_nstep] plus [ndim] fresh samples scaled by its mean. *)
Definition perturbed (i : nat) : list T :=
  let c := state_at (i * Z.to_nat t1_nstep) ref in
  vadd c (vscale (map gauss (seq (drawn0 + i * nrows ref) (nrows ref))) (np_mean c)).

Definition segment (i : nat) : list (list T) := model (perturbed i) ts.

Definition lag_diff (i : nat) : list T :=
  vsub (state_at (Z.to_nat (2 * t1_nstep - 1)) (segment i))
       (state_at (Z.to_nat (t1_nstep - 1)) (segment (S i))).

(** The sum of the outer products of the lag differences [0 .. n-1]. *)
Fixpoint lag_sum (n : nat) : list (list T) :=
  match n with
  | O => zeros (nrows ref) (nrows ref)
  | S n' => madd (lag_sum n') (outer (lag_diff n'))
  end.

Definition lag_covariance (alpha : T) (num : Z) : list (list T) :=
  mdiv (mscale alpha (lag_sum (Z.to_nat (num - 1)))) (of_int (num - 1)).

(** What the forecasts [k .. k+n-1] add to the trace. *)
Definition forecast_events (k n : nat) : list (event T) :=
  flat_map (fun i => [EvRandn (nrows ref); EvModel (perturbed i) ts]) (seq k n).

End Closed_form.

(** A 2-d array of shape [(r, c)]. *)
Definition has_shape {T : Type} (r c : nat) (m : list (list T)) : Prop :=
  length m = r /\ Forall (fun row => length row = c) m.

(** ** The refinement loop, iteration by iteration

    One iteration as the method describes it: configure the object with the
    current [Pb], run one cycle, estimate [Pb] anew from the analysis with
    the window [10 * dt], and add it to the accumulator exactly when
    [i / niter > mean_ratio]. *)

Section Iterations.
Context {T : Type} `{Scalar T}.
Variable gauss : nat -> T.
Context {A : Type}.
Variable ops : Assim T A.
Variable model : list T -> list T -> list (list T).
Variable dt : T.
Variable niter : Z.
Variable mean_ratio : T.

Inductive iteration (i : Z) : loop_state T A * world T -> loop_state T A * world T -> Prop :=
| iteration_intro (s : loop_state T A) (w w' : world T) (a1 a2 : A)
    (Pb acc : list (list T)) (q : T) (count : Z) :
    a1 = set_params ops (ls_Pb s) (ls_assim s) ->
    a2 = cycle ops a1 ->
    nmc gauss model (analysis ops a2) dt (fmul (of_int 10) dt) (of_int 1)
        (log EvCycle (log (EvSetParams (ls_Pb s)) w)) = (Ok Pb, w') ->
    py_truediv (of_int i) (of_int niter) = Ok q ->
    (fgtb q mean_ratio = true ->
       iadd (ls_Pb_result s) Pb = Ok acc /\ count = ls_count s + 1) ->
    (fgtb q mean_ratio = false ->
       acc = ls_Pb_result s /\ count = ls_count s) ->
    iteration i (s, w)
      ({| ls_assim := a2; ls_Pb := Pb; ls_Pb_result := acc; ls_count := count |}, w').

(** The iterations [k, k+1, ..., k+n-1] in this order. *)
Inductive iterations : nat -> nat -> loop_state T A * world T -> loop_state T A * world T -> Prop :=
| iterations_done (k : nat) (sw : loop_state T A * world T) : iterations k 0 sw sw
| iterations_next (k n : nat) (sw sw' sw'' : loop_state T A * world T) :
    iteration (Z.of_nat k) sw sw' ->
    iterations (S k) n sw' sw'' ->
    iterations k (S n) sw sw''.

End Iterations.

(** ** The averaged iterations *)

Section Averaged.
Context {T : Type} `{Scalar T}.
Variable niter : Z.
Variable mean_ratio : T.

(** The iterations that are averaged: those with [i / niter > mean_ratio]. *)
Definition averaged (k n : nat) : list Z :=
  filter (fun i => fgtb (fdiv (of_int i) (of_int niter)) mean_ratio)
         (map Z.of_nat (seq k n)).

End Averaged.

(** ** Built-in exceptions and tame computations *)

(** The exceptions of the interpreter and of numpy. *)
Definition is_builtin (e : exn) : bool :=
  match e with
  | ZeroDivisionError | ValueError | IndexError | OverflowError => true
  | InvalidParameter | InsufficientData | InsufficientIterations => false
  end.

Definition plain {A : Type} (r : outcome A) : Prop :=
  match r with
  | Ok _ => True
  | Raise e => is_builtin e = true
  end.

(** A computation that raises built-in exceptions only and that only adds
    to the trace. *)
Definition tame {T A : Type} (m : M T A) : Prop :=
  forall w, plain (fst (m w)) /\ exists l, trace (snd (m w)) = trace w ++ l.

(** ** Symmetric and positive semidefinite matrices *)

Section Symmetric.
Context {T : Type} `{Scalar T}.

Definition entry (m : list (list T)) (i j : nat) : T := nth j (nth i m []) zero.

(** An [n x n] matrix equal to its transpose. *)
Definition symmetric (n : nat) (m : list (list T)) : Prop :=
  forall i j, (i < n)%nat -> (j < n)%nat -> entry m i j = entry m j i.

End Symmetric.

Fixpoint dot (u v : list Q) : Q :=
  match u, v with
  | a :: u', b :: v' => (a * b + dot u' v')%Q
  | _, _ => 0%Q
  end.

(** [u^T m v]. *)
Definition bilinear (u v : list Q) (m : list (list Q)) : Q :=
  dot u (map (fun row => dot row v) m).

(** [v^T m v >= 0] for every [v] of length [n]. *)
Definition psd (n : nat) (m : list (list Q)) : Prop :=
  forall v : list Q, length v = n -> (0 <= bilinear v v m)%Q.

(** The exact value of a finite binary64 number. *)
Definition float_to_Q (x : float) : Q :=
  match Prim2SF x with
  | S754_finite s m e =>
      if 0 <=? e then inject_Z (cond_Zopp s (Z.pos m) * 2 ^ e)
      else Qmake (cond_Zopp s (Z.pos m)) (Z.to_pos (2 ^ (- e)))
  | _ => 0%Q
  end.

(** ** Inputs of the scenarios *)

(** The stationary model: every state of the forecast is the initial one. *)
Definition stationary {T : Type} (x0 ts : list T) : list (list T) :=
  map (fun x => map (fun _ => x) ts) x0.

(** A world in which nothing has happened yet. *)
Definition fresh {T : Type} : world T := {| drawn := 0; trace := [] |}.

(** A generator that delivers [-0.5] at every draw. *)
Definition gauss_half (n : nat) : float := (-0.5)%float.

(** One variable, five times: [2, 0, 0, 0, 0]. *)
Definition ref5 : list (list float) := [[2; 0; 0; 0; 0]%float].

(** One variable, twenty times, a small constant. *)
Definition ref20 : list (list float) := [repeat 0.001%float 20].

(** Three variables, three times; the first state has mean zero. *)
Definition ref3 : list (list float) :=
  [[0.1; 0; 0]; [1.5; 0; 0]; [-1.6; 0; 0]]%float.

(** One variable, thirty times: [0, 1, ..., 29]. *)
Definition ref30 : list (list float) :=
  [map (fun i => Z2float (Z.of_nat i)) (seq 0 30)].

(** An assimilation object whose cycle leaves the analysis [ref] as it is;
    its state counts the cycles. *)
Definition mock_assim {T : Type} `{Scalar T} (ref : list (list T)) : Assim T nat :=
  Build_Assim (fun _ => stationary) (fun _ => of_int 1) (fun _ a => a) S (fun _ => ref).

Definition gauss_half_Q (n : nat) : Q := (- (1 # 2))%Q.

Definition ref5_Q : list (list Q) := [[2; 0; 0; 0; 0]%Q].

Definition ref20_Q : list (list Q) := [repeat (1 # 1000)%Q 20].

(** ** Counting the forecasts *)

Definition is_model_call {T : Type} (e : event T) : bool :=
  match e with
  | EvModel _ _ => true
  | _ => false
  end.

(** The number of model calls in a trace. *)
Definition model_calls {T : Type} (tr : list (event T)) : nat :=
  length (filter is_model_call tr).

(** ** Further inputs *)

(** One variable, no time at all. *)
Definition ref_empty : list (list float) := [[]].

(** One variable, six times; the two references agree at the times [0] and
    [2] only. *)
Definition ref6 : list (list float) := [[1; 9; 3; 9; 9; 9]%float].

Definition ref6' : list (list float) := [[1; 0; 3; 0; 0; 0]%float].

(** A model whose forecast is the initial state at the odd time indices and
    zero at the even ones. *)
Definition alternating (x0 ts : list float) : list (list float) :=
  map (fun x => map (fun k => if Nat.even k then 0%float else x) (seq 0 (length ts))) x0.

(** A 3 x 3 initial covariance for a one-variable model. *)
Definition R3 : list (list float) :=
  [[2; 0; 0]; [0; 2; 0]; [0; 0; 2]]%float.

(** ** The calls on the assimilation object *)

Definition is_assim_call {T : Type} (e : event T) : bool :=
  match e with
  | EvSetParams _ => true
  | EvCycle => true
  | _ => false
  end.

(** The calls on the assimilation object in a trace, in order. *)
Definition assim_calls {T : Type} (tr : list (event T)) : list (event T) :=
  filter is_assim_call tr.

(** A computation that makes no call on the assimilation object, whether it
    returns or raises. *)
Definition hands_off {T A : Type} (m : M T A) : Prop :=
  forall w, assim_calls (trace (snd (m w))) = assim_calls (trace w).

(** ** Lists, indices and shapes *)

Lemma py_index_nat (len k : nat) :
  (k < len)%nat -> py_index len (Z.of_nat k) = Ok k.
Proof.
  intros Hk. unfold py_index.
  replace (0 <=? Z.of_nat k) with true by (symmetry; apply Z.leb_le; lia).
  replace (Z.of_nat k <? Z.of_nat len) with true by (symmetry; apply Z.ltb_lt; lia).
  simpl. now rewrite Nat2Z.id.
Qed.

Lemma length_list_set {A : Type} (i : nat) (x : A) (l : list A) :
  length (list_set i x l) = length l.
Proof.
  revert i; induction l as [|a l IH]; intros [|i]; simpl; auto.
Qed.

Lemma firstn_list_set {A : Type} (i : nat) (x : A) (l : list A) :
  (i < length l)%nat -> firstn (S i) (list_set i x l) = firstn i l ++ [x].
Proof.
  revert i; induction l as [|a l IH]; intros [|i] Hi; simpl in *; try lia.
  - reflexivity.
  - f_equal. apply IH. lia.
Qed.

Lemma set_item_nat {A : Type} (i : nat) (x : A) (l : list A) :
  (i < length l)%nat -> set_item (Z.of_nat i) x l = Ok (list_set i x l).
Proof.
  intros Hi. unfold set_item. now rewrite py_index_nat.
Qed.

Lemma Forall2_map_both {A B : Type} (R : B -> B -> Prop) (f g : A -> B) (l : list A) :
  (forall a, R (f a) (g a)) -> Forall2 R (map f l) (map g l).
Proof. intros Hfg. induction l; simpl; constructor; auto. Qed.

Section Array_facts.
Context {T : Type} `{Scalar T}.

Lemma ncols_shape (r c : nat) (m : list (list T)) :
  has_shape r c m -> (0 < r)%nat -> ncols m = c.
Proof.
  intros [Hr Hc] Hpos. unfold ncols. destruct m as [|row m]; simpl in *; [lia|].
  now inversion Hc.
Qed.

Lemma col_nat (k : nat) (m : list (list T)) :
  (k < ncols m)%nat -> col (Z.of_nat k) m = Ok (state_at k m).
Proof.
  intros Hk. unfold col. now rewrite py_index_nat.
Qed.

Lemma mapR_broadcast_row_id (c : nat) (m : list (list T)) :
  Forall (fun row => length row = c) m -> mapR (broadcast_row c) m = Ok m.
Proof.
  induction 1 as [|row m Hrow _ IH]; simpl; [reflexivity|].
  unfold broadcast_row at 1. rewrite Hrow, Nat.eqb_refl. simpl.
  now rewrite IH.
Qed.

Lemma broadcast_to_id (r c : nat) (m : list (list T)) :
  has_shape r c m -> broadcast_to r c m = Ok m.
Proof.
  intros [Hr Hc]. unfold broadcast_to.
  rewrite (mapR_broadcast_row_id c m Hc). simpl.
  now rewrite Hr, Nat.eqb_refl.
Qed.

Lemma length_state_at (k : nat) (m : list (list T)) :
  length (state_at k m) = length m.
Proof. unfold state_at. apply length_map. Qed.

End Array_facts.

(** ** The segments *)

Section Segments.
Context {T : Type} `{Scalar T}.
Variable gauss : nat -> T.
Variable model : list T -> list T -> list (list T).
Variable ref : list (list T).
Variable t1_nstep : Z.
Variable ts : list T.
Variable drawn0 : nat.

Hypothesis Hmodel : forall x0, length x0 = nrows ref ->
  has_shape (nrows ref) (Z.to_nat (2 * t1_nstep)) (model x0 ts).

Lemma length_zip_with (f : T -> T -> T) (u v : list T) :
  length (zip_with f u v) = Nat.min (length u) (length v).
Proof.
  revert v; induction u as [|a u IH]; intros [|b v]; simpl; auto.
Qed.

Lemma length_perturbed (i : nat) :
  length (perturbed gauss ref t1_nstep drawn0 i) = nrows ref.
Proof.
  unfold perturbed, vadd, vscale.
  rewrite length_zip_with, length_state_at, !length_map, length_seq.
  unfold nrows. lia.
Qed.

Lemma segment_shape (i : nat) :
  has_shape (nrows ref) (Z.to_nat (2 * t1_nstep))
    (segment gauss model ref t1_nstep ts drawn0 i).
Proof. apply Hmodel, length_perturbed. Qed.

End Segments.

(** ** The forecast loop *)

Section Forecast_loop.
Context {T : Type} `{Scalar T}.
Variable gauss : nat -> T.
Variable model : list T -> list T -> list (list T).
Variable ref : list (list T).
Variable dt : T.
Variable t1_nstep : Z.
Variable ts : list T.
Variable num : nat.
Variable drawn0 : nat.

(** The time grid is [ts], on it the model returns [ndim] rows of
    [2 * t1_nstep] values, and the loop stays inside the reference. *)
Hypothesis Hgrid : np_arange zero (fmul (of_int (2 * t1_nstep)) dt) dt = Ok ts.
Hypothesis Hmodel : forall x0, length x0 = nrows ref ->
  has_shape (nrows ref) (Z.to_nat (2 * t1_nstep)) (model x0 ts).
Hypothesis Ht1 : 1 <= t1_nstep.
Hypothesis Hfit : Z.of_nat num * t1_nstep < Z.of_nat (ncols ref).

Lemma forecast_body_step (i : nat) (result : list (list (list T))) (w : world T) :
  (i < num)%nat -> length result = num ->
  drawn w = (drawn0 + i * nrows ref)%nat ->
  forecast_body gauss model ref dt (nrows ref) t1_nstep (Z.of_nat i) result w =
  (Ok (list_set i (segment gauss model ref t1_nstep ts drawn0 i) result),
   {| drawn := (drawn0 + S i * nrows ref)%nat;
      trace := trace w ++ forecast_events gauss ref t1_nstep ts drawn0 i 1 |}).
Proof.
  intros Hi Hlen Hdrawn.
  unfold forecast_body, bind, lift, randn, call_model, log.
  replace (Z.of_nat i * t1_nstep) with (Z.of_nat (i * Z.to_nat t1_nstep)) by nia.
  rewrite col_nat by nia.
  rewrite Hgrid. cbn [drawn trace].
  rewrite Hdrawn.
  fold (perturbed gauss ref t1_nstep drawn0 i).
  fold (segment gauss model ref t1_nstep ts drawn0 i).
  rewrite (broadcast_to_id _ _ _ (segment_shape gauss model ref t1_nstep ts drawn0 Hmodel i)).
  rewrite set_item_nat by lia.
  unfold forecast_events. cbn [seq flat_map]. rewrite app_nil_r, <- app_assoc.
  do 2 f_equal. cbn. lia.
Qed.

Lemma forecast_loop_from (n : nat) : forall (k : nat) (result : list (list (list T))) (w : world T),
  (k + n)%nat = num -> length result = num ->
  drawn w = (drawn0 + k * nrows ref)%nat ->
  foldM (forecast_body gauss model ref dt (nrows ref) t1_nstep)
        (map Z.of_nat (seq k n)) result w =
  (Ok (firstn k result ++ map (segment gauss model ref t1_nstep ts drawn0) (seq k n)),
   {| drawn := (drawn0 + num * nrows ref)%nat;
      trace := trace w ++ forecast_events gauss ref t1_nstep ts drawn0 k n |}).
Proof.
  induction n as [|n IH]; intros k result w Hk Hlen Hdrawn.
  - cbn. unfold ret, forecast_events. cbn. rewrite !app_nil_r.
    rewrite firstn_all2 by lia. destruct w as [d tr]; cbn in *.
    do 2 f_equal. subst. f_equal. lia.
  - cbn [seq map foldM]. unfold bind at 1.
    rewrite forecast_body_step by (auto; lia).
    rewrite IH; cbn [drawn trace].
    + rewrite firstn_list_set by lia. rewrite <- app_assoc. cbn [app].
      unfold forecast_events. cbn [seq flat_map].
      rewrite <- !app_assoc. reflexivity.
    + lia.
    + now rewrite length_list_set.
    + reflexivity.
Qed.

(** The whole loop, started on the array of zeros. *)
Lemma forecast_loop (result0 : list (list (list T))) (w : world T) :
  length result0 = num -> drawn w = drawn0 ->
  foldM (forecast_body gauss model ref dt (nrows ref) t1_nstep)
        (range (Z.of_nat num)) result0 w =
  (Ok (map (segment gauss model ref t1_nstep ts drawn0) (seq 0 num)),
   {| drawn := (drawn0 + num * nrows ref)%nat;
      trace := trace w ++ forecast_events gauss ref t1_nstep ts drawn0 0 num |}).
Proof.
  intros Hlen Hdrawn. unfold range. rewrite Nat2Z.id.
  rewrite (forecast_loop_from num 0 result0 w); auto. lia.
Qed.

End Forecast_loop.

(** ** From the segments to the estimate *)

Section Lag_pairs.
Context {T : Type} `{Scalar T}.

Lemma mapR_map {A B C : Type} (f : B -> outcome C) (g : A -> B) (h : A -> C) (l : list A) :
  (forall a, In a l -> f (g a) = Ok (h a)) -> mapR f (map g l) = Ok (map h l).
Proof.
  induction l as [|a l IH]; intros Hf; simpl; [reflexivity|].
  rewrite Hf by (now left). simpl. rewrite IH by (intros; apply Hf; now right).
  reflexivity.
Qed.

Lemma removelast_map_seq {A : Type} (g : nat -> A) (n : nat) :
  removelast (map g (seq 0 n)) = map g (seq 0 (Nat.pred n)).
Proof.
  destruct n as [|n]; [reflexivity|].
  rewrite seq_S, map_app. cbn [map Nat.pred Nat.add]. apply removelast_last.
Qed.

Lemma tl_map_seq {A : Type} (f : nat -> A) (n : nat) :
  tl (map f (seq 0 n)) = map f (seq 1 (Nat.pred n)).
Proof. destruct n; reflexivity. Qed.

Lemma combine_map_seq {A B : Type} (f : nat -> A) (g : nat -> B) (n : nat) : forall k,
  combine (map f (seq (S k) n)) (map g (seq k n)) =
  map (fun i => (f (S i), g i)) (seq k n).
Proof.
  induction n as [|n IH]; intros k; cbn; [reflexivity|].
  f_equal. apply IH.
Qed.

(** The pairs of the loop of line 60: the short lag of segment [i+1] with
    the long lag of segment [i], for [i] from [0] to [num - 2]. *)
Lemma lag_pairs_seq (short long : nat -> list T) (num : nat) :
  lag_pairs (map (fun i => (short i, long i)) (seq 0 num)) =
  map (fun i => (short (S i), long i)) (seq 0 (Nat.pred num)).
Proof.
  unfold lag_pairs. rewrite !map_map. cbn [fst snd].
  rewrite tl_map_seq, removelast_map_seq. apply combine_map_seq.
Qed.

Variable gauss : nat -> T.
Variable model : list T -> list T -> list (list T).
Variable ref : list (list T).
Variable t1_nstep : Z.
Variable ts : list T.
Variable drawn0 : nat.

Lemma accumulate_lag_sum (n : nat) :
  accumulate (nrows ref)
    (map (fun i =>
            (state_at (Z.to_nat (t1_nstep - 1)) (segment gauss model ref t1_nstep ts drawn0 (S i)),
             state_at (Z.to_nat (2 * t1_nstep - 1)) (segment gauss model ref t1_nstep ts drawn0 i)))
         (seq 0 n)) =
  lag_sum gauss model ref t1_nstep ts drawn0 n.
Proof.
  unfold accumulate. induction n as [|n IH]; [reflexivity|].
  rewrite seq_S, map_app, fold_left_app, IH. reflexivity.
Qed.

Hypothesis Hmodel : forall x0, length x0 = nrows ref ->
  has_shape (nrows ref) (Z.to_nat (2 * t1_nstep)) (model x0 ts).
Hypothesis Ht1 : 1 <= t1_nstep.
Hypothesis Hndim : (0 < nrows ref)%nat.

Lemma lag_states_segments (num : nat) :
  lag_states t1_nstep (map (segment gauss model ref t1_nstep ts drawn0) (seq 0 num)) =
  Ok (map (fun i =>
             (state_at (Z.to_nat (t1_nstep - 1)) (segment gauss model ref t1_nstep ts drawn0 i),
              state_at (Z.to_nat (2 * t1_nstep - 1)) (segment gauss model ref t1_nstep ts drawn0 i)))
          (seq 0 num)).
Proof.
  unfold lag_states. apply mapR_map. intros i _.
  pose proof (segment_shape gauss model ref t1_nstep ts drawn0 Hmodel i) as Hs.
  pose proof (ncols_shape _ _ _ Hs Hndim) as Hc.
  rewrite <- (Z2Nat.id (t1_nstep - 1)) at 1 by lia.
  rewrite col_nat by (rewrite Hc; lia). cbn [rbind].
  rewrite <- (Z2Nat.id (2 * t1_nstep - 1)) at 1 by lia.
  rewrite col_nat by (rewrite Hc; lia). reflexivity.
Qed.

End Lag_pairs.

(** ** nmc in closed form *)

Section NMC_closed_form.
Context {T : Type} `{Scalar T}.

Lemma nmc_steps_inv (ref : list (list T)) (dt t1 : T) (t1_nstep num : Z) :
  nmc_steps ref dt t1 = Ok (t1_nstep, num) ->
  (0 < ncols ref)%nat /\
  (exists q, py_truediv t1 dt = Ok q /\ py_int q = Ok t1_nstep) /\
  t1_nstep <> 0 /\
  num = Z.of_nat (ncols ref) / t1_nstep - 1.
Proof.
  unfold nmc_steps, col, py_index.
  destruct (ncols ref) as [|len] eqn:Hlen; [discriminate|].
  cbn [rbind Z.leb Z.compare andb Z.of_nat Z.ltb].
  destruct (py_truediv t1 dt) as [q|e]; [|discriminate]. cbn [rbind].
  destruct (py_int q) as [n|e] eqn:Hq; [|discriminate]. cbn [rbind].
  unfold py_floordiv. destruct (Z.eqb_spec n 0) as [Hn|Hn]; [discriminate|].
  cbn [rbind]. intros Heq. injection Heq as <- <-.
  repeat split; try lia; eauto.
Qed.

Lemma nmc_steps_nonempty (ref : list (list T)) (dt t1 : T) (t1_nstep num : Z) :
  nmc_steps ref dt t1 = Ok (t1_nstep, num) -> (0 < nrows ref)%nat.
Proof.
  intros Hs. apply nmc_steps_inv in Hs as (Hc & _). unfold ncols, nrows in *.
  destruct ref; simpl in *; lia.
Qed.

(** With at least one step in [t1], a time grid on which the model returns
    segments of the expected shape, and [num >= 0], the call returns the
    scaled sum of the outer products of the lag differences; it draws
    [num * ndim] samples and calls the model [num] times. *)
Lemma nmc_closed_form (gauss : nat -> T) (model : list T -> list T -> list (list T))
  (ref : list (list T)) (dt t1 alpha : T) (t1_nstep num : Z) (ts : list T) (w : world T) :
  nmc_steps ref dt t1 = Ok (t1_nstep, num) ->
  1 <= t1_nstep -> 0 <= num ->
  np_arange zero (fmul (of_int (2 * t1_nstep)) dt) dt = Ok ts ->
  (forall x0, length x0 = nrows ref ->
     has_shape (nrows ref) (Z.to_nat (2 * t1_nstep)) (model x0 ts)) ->
  nmc gauss model ref dt t1 alpha w =
  (Ok (lag_covariance gauss model ref t1_nstep ts (drawn w) alpha num),
   {| drawn := (drawn w + Z.to_nat num * nrows ref)%nat;
      trace := trace w ++ forecast_events gauss ref t1_nstep ts (drawn w) 0 (Z.to_nat num) |}).
Proof.
  intros Hsteps Ht1 Hnum Hgrid Hmodel.
  pose proof (nmc_steps_nonempty _ _ _ _ _ Hsteps) as Hndim.
  pose proof (nmc_steps_inv _ _ _ _ _ Hsteps) as (Hc & _ & _ & Hnumeq).
  assert (Hfit : Z.of_nat (Z.to_nat num) * t1_nstep < Z.of_nat (ncols ref)).
  { rewrite Z2Nat.id by lia.
    pose proof (Z.mul_div_le (Z.of_nat (ncols ref)) t1_nstep ltac:(lia)). nia. }
  unfold nmc, bind, lift. rewrite Hsteps.
  unfold np_zeros3.
  replace (num <? 0) with false by (symmetry; apply Z.ltb_ge; lia).
  replace (2 * t1_nstep <? 0) with false by (symmetry; apply Z.ltb_ge; lia).
  cbn [orb].
  rewrite <- (Z2Nat.id num) at 1 by lia.
  rewrite (forecast_loop gauss model ref dt t1_nstep ts (Z.to_nat num) (drawn w)
             Hgrid Hmodel Ht1 Hfit) by (auto using repeat_length).
  rewrite (lag_states_segments gauss model ref t1_nstep ts (drawn w) Hmodel Ht1 Hndim).
  rewrite lag_pairs_seq, accumulate_lag_sum.
  unfold ret, lag_covariance.
  replace (Nat.pred (Z.to_nat num)) with (Z.to_nat (num - 1)) by lia.
  reflexivity.
Qed.

End NMC_closed_form.

(** ** The loop and its iterations *)

Section Iteration_facts.
Context {T : Type} `{Scalar T}.
Variable gauss : nat -> T.
Context {A : Type}.
Variable ops : Assim T A.
Variable model : list T -> list T -> list (list T).
Variable dt : T.
Variable niter : Z.
Variable mean_ratio : T.

Lemma iter_body_iteration (i : Z) (s s' : loop_state T A) (w w' : world T) :
  iter_body gauss ops model dt niter mean_ratio i s w = (Ok s', w') <->
  iteration gauss ops model dt niter mean_ratio i (s, w) (s', w').
Proof.
  unfold iter_body, bind, do_set_params, do_cycle, lift, ret. split.
  - destruct (nmc _ _ _ _ _ _ _) as [[Pb|e] w1] eqn:Hnmc; [|discriminate].
    destruct (py_truediv _ _) as [q|e] eqn:Hq; [|discriminate].
    destruct (fgtb q mean_ratio) eqn:Hgt.
    + destruct (iadd _ _) as [acc|e] eqn:Hadd; [|discriminate].
      intros Heq; injection Heq as <- <-.
      apply (iteration_intro gauss ops model dt niter mean_ratio i s w w1 _ _ Pb acc q (ls_count s + 1)
               eq_refl eq_refl Hnmc Hq); intros Hc; [split; auto | congruence].
    + intros Heq; injection Heq as <- <-.
      apply (iteration_intro gauss ops model dt niter mean_ratio i s w w1 _ _ Pb (ls_Pb_result s) q (ls_count s)
               eq_refl eq_refl Hnmc Hq); intros Hc; [congruence | split; auto].
  - intros Hit. inversion Hit as [s0 w0 w0' a1 a2 Pb acc q count Ha1 Ha2 Hnmc Hq Ht Hf];
      subst.
    rewrite Hnmc, Hq. destruct (fgtb q mean_ratio) eqn:Hgt.
    + destruct (Ht eq_refl) as [-> ->]. reflexivity.
    + destruct (Hf eq_refl) as [-> ->]. reflexivity.
Qed.

Lemma foldM_iterations (n : nat) : forall (k : nat) (s s' : loop_state T A) (w w' : world T),
  foldM (iter_body gauss ops model dt niter mean_ratio) (map Z.of_nat (seq k n)) s w
    = (Ok s', w') <->
  iterations gauss ops model dt niter mean_ratio k n (s, w) (s', w').
Proof.
  induction n as [|n IH]; intros k s s' w w'; cbn [seq map foldM].
  - unfold ret. split.
    + intros Heq; injection Heq as <- <-. constructor.
    + intros Hit; inversion Hit; subst. reflexivity.
  - unfold bind at 1. split.
    + destruct (iter_body _ _ _ _ _ _ _ _ _) as [[s1|e] w1] eqn:Hb; [|discriminate].
      intros Hrest. econstructor.
      * apply iter_body_iteration, Hb.
      * apply IH, Hrest.
    + intros Hit. inversion Hit as [|k0 n0 sw [s1 w1] sw'' H1 Hrest]; subst.
      apply iter_body_iteration in H1. rewrite H1. apply IH, Hrest.
Qed.

End Iteration_facts.

(** ** The count and the accumulator *)

Section Count.
Context {T : Type} `{Scalar T}.
Variable gauss : nat -> T.
Context {A : Type}.
Variable ops : Assim T A.
Variable model : list T -> list T -> list (list T).
Variable dt : T.
Variable niter : Z.
Variable mean_ratio : T.

Lemma iteration_count (i : Z) (sw sw' : loop_state T A * world T) :
  iteration gauss ops model dt niter mean_ratio i sw sw' ->
  (fgtb (fdiv (of_int i) (of_int niter)) mean_ratio = true /\
   ls_count (fst sw') = ls_count (fst sw) + 1) \/
  (fgtb (fdiv (of_int i) (of_int niter)) mean_ratio = false /\
   ls_count (fst sw') = ls_count (fst sw) /\
   ls_Pb_result (fst sw') = ls_Pb_result (fst sw)).
Proof.
  intros Hit. inversion Hit as [s w w' a1 a2 Pb acc q count _ _ _ Hq Ht Hf]; subst.
  cbn [fst ls_count ls_Pb_result].
  unfold py_truediv in Hq. destruct (fis_zero (of_int niter)); [discriminate|].
  injection Hq as <-.
  destruct (fgtb (fdiv (of_int i) (of_int niter)) mean_ratio).
  - left. destruct (Ht eq_refl). auto.
  - right. destruct (Hf eq_refl). auto.
Qed.

(** The count grows by the number of averaged iterations. *)
Lemma iterations_count (k n : nat) (sw sw' : loop_state T A * world T) :
  iterations gauss ops model dt niter mean_ratio k n sw sw' ->
  ls_count (fst sw') = ls_count (fst sw) + Z.of_nat (length (averaged niter mean_ratio k n)).
Proof.
  induction 1 as [k sw|k n sw sw' sw'' Hit Hrest IH].
  - cbn. lia.
  - rewrite IH. unfold averaged. cbn [seq map filter].
    destruct (iteration_count _ _ _ Hit) as [(-> & ->)|(-> & -> & _)];
      cbn [length]; unfold averaged; lia.
Qed.

(** As long as the count is zero the accumulator is the one of the start. *)
Lemma iterations_untouched (k n : nat) (sw sw' : loop_state T A * world T) :
  iterations gauss ops model dt niter mean_ratio k n sw sw' ->
  0 <= ls_count (fst sw) ->
  ls_count (fst sw') = 0 ->
  ls_Pb_result (fst sw') = ls_Pb_result (fst sw).
Proof.
  induction 1 as [k sw|k n sw sw' sw'' Hit Hrest IH]; intros Hpos Hzero.
  - reflexivity.
  - pose proof (iterations_count _ _ _ _ Hrest) as Hc.
    destruct (iteration_count _ _ _ Hit) as [(_ & Hs)|(_ & Hs & Hacc)].
    + lia.
    + rewrite IH by lia. exact Hacc.
Qed.

End Count.

(** ** What a call can raise, and what it does to the trace *)

Lemma plain_rbind {A B : Type} (r : outcome A) (k : A -> outcome B) :
  plain r -> (forall a, plain (k a)) -> plain (rbind r k).
Proof. destruct r; simpl; auto. Qed.

Lemma plain_mapR {A B : Type} (f : A -> outcome B) (l : list A) :
  (forall a, plain (f a)) -> plain (mapR f l).
Proof.
  intros Hf. induction l as [|a l IH]; simpl; [exact I|].
  apply plain_rbind; [apply Hf|]. intros b. apply plain_rbind; [exact IH|].
  intros; exact I.
Qed.

Lemma plain_py_index (len : nat) (k : Z) : plain (py_index len k).
Proof.
  unfold py_index.
  destruct ((0 <=? k) && (k <? Z.of_nat len)); [exact I|].
  destruct ((- Z.of_nat len <=? k) && (k <? 0)); [exact I|reflexivity].
Qed.

Lemma plain_py_int_of (c : int_conv) : plain (py_int_of c).
Proof. destruct c; simpl; auto. Qed.

Lemma plain_set_item {A : Type} (i : Z) (x : A) (l : list A) : plain (set_item i x l).
Proof.
  unfold set_item. apply plain_rbind; [apply plain_py_index|]. intros; exact I.
Qed.

Section Plain.
Context {T : Type} `{Scalar T}.

Lemma plain_py_truediv (a b : T) : plain (py_truediv a b).
Proof. unfold py_truediv. destruct (fis_zero b); simpl; auto. Qed.

Lemma plain_py_floordiv (a b : Z) : plain (py_floordiv a b).
Proof. unfold py_floordiv. destruct (b =? 0); simpl; auto. Qed.

Lemma plain_col (k : Z) (m : list (list T)) : plain (col k m).
Proof.
  unfold col. apply plain_rbind; [apply plain_py_index|]. intros; exact I.
Qed.

Lemma plain_broadcast_row (c : nat) (row : list T) : plain (broadcast_row c row).
Proof.
  unfold broadcast_row. destruct (Nat.eqb (length row) c); [exact I|].
  destruct row as [|x [|y row]]; simpl; auto.
Qed.

Lemma plain_broadcast_to (r c : nat) (m : list (list T)) : plain (broadcast_to r c m).
Proof.
  unfold broadcast_to. apply plain_rbind.
  - apply plain_mapR, plain_broadcast_row.
  - intros rows. destruct (Nat.eqb (length rows) r); [exact I|].
    destruct rows as [|x [|y rows]]; simpl; auto.
Qed.

Lemma plain_iadd (a b : list (list T)) : plain (iadd a b).
Proof.
  unfold iadd. apply plain_rbind; [apply plain_broadcast_to|]. intros; exact I.
Qed.

Lemma plain_np_arange (start stop step : T) : plain (np_arange start stop step).
Proof.
  unfold np_arange. apply plain_rbind; [apply plain_py_truediv|]. intros q.
  apply plain_rbind; [apply plain_py_int_of|]. intros; exact I.
Qed.

Lemma plain_np_zeros3 (n : Z) (r : nat) (c : Z) : plain (np_zeros3 (T:=T) n r c).
Proof. unfold np_zeros3. destruct ((n <? 0) || (c <? 0)); simpl; auto. Qed.

Lemma plain_nmc_steps (ref : list (list T)) (dt t1 : T) : plain (nmc_steps ref dt t1).
Proof.
  unfold nmc_steps. apply plain_rbind; [apply plain_col|]. intros _.
  apply plain_rbind; [apply plain_py_truediv|]. intros q.
  apply plain_rbind; [apply plain_py_int_of|]. intros n.
  apply plain_rbind; [apply plain_py_floordiv|]. intros; exact I.
Qed.

Lemma plain_lag_states (t1_nstep : Z) (result : list (list (list T))) :
  plain (lag_states t1_nstep result).
Proof.
  unfold lag_states. apply plain_mapR. intros m.
  apply plain_rbind; [apply plain_col|]. intros xs.
  apply plain_rbind; [apply plain_col|]. intros; exact I.
Qed.

Lemma tame_ret {B : Type} (b : B) : tame (ret (T:=T) b).
Proof. intros w. split; [exact I|]. exists []. cbn. now rewrite app_nil_r. Qed.

Lemma tame_lift {B : Type} (r : outcome B) : plain r -> tame (lift (T:=T) r).
Proof. intros Hr w. split; [exact Hr|]. exists []. cbn. now rewrite app_nil_r. Qed.

Lemma tame_bind {B C : Type} (m : M T B) (k : B -> M T C) :
  tame m -> (forall b, tame (k b)) -> tame (bind m k).
Proof.
  intros Hm Hk w. unfold bind. destruct (Hm w) as [Hp [l Hl]].
  destruct (m w) as [[b|e] w1]; cbn [fst snd] in *.
  - destruct (Hk b w1) as [Hp' [l' Hl']]. split; [exact Hp'|].
    exists (l ++ l'). now rewrite Hl', Hl, app_assoc.
  - split; [exact Hp|]. now exists l.
Qed.

Lemma tame_foldM {I S : Type} (body : I -> S -> M T S) (l : list I) :
  (forall i s, tame (body i s)) -> forall s, tame (foldM body l s).
Proof.
  intros Hb. induction l as [|i l IH]; intros s; cbn [foldM].
  - apply tame_ret.
  - apply tame_bind; [apply Hb|exact IH].
Qed.

Lemma tame_log {B : Type} (b : B) (e : event T) : tame (fun w => (Ok b, log e w)).
Proof. intros w. split; [exact I|]. now exists [e]. Qed.

Variable gauss : nat -> T.

Lemma tame_randn (n : nat) : tame (randn gauss n).
Proof. intros w. split; [exact I|]. now exists [EvRandn n]. Qed.

Lemma tame_forecast_body (model : list T -> list T -> list (list T))
  (ref : list (list T)) (dt : T) (ndim : nat) (t1_nstep i : Z)
  (result : list (list (list T))) :
  tame (forecast_body gauss model ref dt ndim t1_nstep i result).
Proof.
  unfold forecast_body.
  apply tame_bind; [apply tame_lift, plain_col|]. intros c.
  apply tame_bind; [apply tame_randn|]. intros z.
  apply tame_bind; [apply tame_lift, plain_np_arange|]. intros ts.
  apply tame_bind; [apply tame_log|]. intros xf.
  apply tame_bind; [apply tame_lift, plain_broadcast_to|]. intros seg.
  apply tame_lift, plain_set_item.
Qed.

Lemma tame_nmc (model : list T -> list T -> list (list T))
  (ref : list (list T)) (dt t1 alpha : T) :
  tame (nmc gauss model ref dt t1 alpha).
Proof.
  unfold nmc.
  apply tame_bind; [apply tame_lift, plain_nmc_steps|]. intros [t1_nstep num].
  apply tame_bind; [apply tame_lift, plain_np_zeros3|]. intros result0.
  apply tame_bind; [apply tame_foldM; intros; apply tame_forecast_body|]. intros result.
  apply tame_bind; [apply tame_lift, plain_lag_states|]. intros states.
  apply tame_ret.
Qed.

Context {A : Type}.
Variable ops : Assim T A.

(** What follows [set_params] and [cycle] in the body of the loop. *)
Lemma tame_iter_body_rest (model : list T -> list T -> list (list T)) (dt : T)
  (niter : Z) (mean_ratio : T) (i : Z) (s : loop_state T A) (a2 : A) :
  tame (Pb <- nmc gauss model (analysis ops a2) dt (fmul (of_int 10) dt) (of_int 1) ;;
        q <- lift (py_truediv (of_int i) (of_int niter)) ;;
        if fgtb q mean_ratio then
          Pb_result <- lift (iadd (ls_Pb_result s) Pb) ;;
          ret {| ls_assim := a2; ls_Pb := Pb; ls_Pb_result := Pb_result;
                 ls_count := ls_count s + 1 |}
        else
          ret {| ls_assim := a2; ls_Pb := Pb; ls_Pb_result := ls_Pb_result s;
                 ls_count := ls_count s |}).
Proof.
  apply tame_bind; [apply tame_nmc|]. intros Pb.
  apply tame_bind; [apply tame_lift, plain_py_truediv|]. intros q.
  destruct (fgtb q mean_ratio).
  - apply tame_bind; [apply tame_lift, plain_iadd|]. intros acc. apply tame_ret.
  - apply tame_ret.
Qed.

Lemma tame_iter_body (model : list T -> list T -> list (list T)) (dt : T)
  (niter : Z) (mean_ratio : T) (i : Z) (s : loop_state T A) :
  tame (iter_body gauss ops model dt niter mean_ratio i s).
Proof.
  unfold iter_body, do_set_params, do_cycle.
  apply tame_bind; [apply tame_log|]. intros a1.
  apply tame_bind; [apply tame_log|]. intros a2.
  apply tame_iter_body_rest.
Qed.

End Plain.

(** ** Shapes *)

Section Shapes.
Context {T : Type} `{Scalar T}.

Lemma has_shape_zeros (r c : nat) : has_shape r c (zeros (T:=T) r c).
Proof.
  unfold zeros. split; [apply repeat_length|].
  apply Forall_forall. intros row Hin. apply repeat_spec in Hin as ->.
  apply repeat_length.
Qed.

Lemma has_shape_outer (d : list T) : has_shape (length d) (length d) (outer d).
Proof.
  unfold outer. split; [apply length_map|].
  apply Forall_forall. intros row Hin. apply in_map_iff in Hin as (a & <- & _).
  apply length_map.
Qed.

Lemma has_shape_madd (r c : nat) : forall a b : list (list T),
  has_shape r c a -> has_shape r c b -> has_shape r c (madd a b).
Proof.
  induction r as [|r IH]; intros [|u a] [|v b] [Ha Hra] [Hb Hrb];
    simpl in *; try discriminate.
  - split; [reflexivity|constructor].
  - inversion Hra as [|? ? Hu Hra']; inversion Hrb as [|? ? Hv Hrb']; subst.
    destruct (IH a b) as [Hl Hf]; [split; auto; lia..|].
    split; [simpl; lia|]. constructor; [|exact Hf].
    unfold vadd. rewrite length_zip_with. lia.
Qed.

Lemma has_shape_map (r c : nat) (f : T -> T) (m : list (list T)) :
  has_shape r c m -> has_shape r c (map (map f) m).
Proof.
  intros [Hl Hr]. split; [now rewrite length_map|].
  apply Forall_forall. intros row Hin. apply in_map_iff in Hin as (row' & <- & Hin').
  rewrite length_map. rewrite Forall_forall in Hr. now apply Hr.
Qed.

Variable gauss : nat -> T.
Variable model : list T -> list T -> list (list T).
Variable ref : list (list T).
Variable t1_nstep : Z.
Variable ts : list T.
Variable drawn0 : nat.

Hypothesis Hmodel : forall x0, length x0 = nrows ref ->
  has_shape (nrows ref) (Z.to_nat (2 * t1_nstep)) (model x0 ts).

Lemma length_lag_diff (i : nat) :
  length (lag_diff gauss model ref t1_nstep ts drawn0 i) = nrows ref.
Proof.
  unfold lag_diff, vsub. rewrite length_zip_with, !length_state_at.
  destruct (segment_shape gauss model ref t1_nstep ts drawn0 Hmodel i) as [-> _].
  destruct (segment_shape gauss model ref t1_nstep ts drawn0 Hmodel (S i)) as [-> _].
  apply Nat.min_id.
Qed.

Lemma has_shape_lag_sum (n : nat) :
  has_shape (nrows ref) (nrows ref) (lag_sum gauss model ref t1_nstep ts drawn0 n).
Proof.
  induction n as [|n IH]; cbn [lag_sum].
  - apply has_shape_zeros.
  - apply has_shape_madd; [exact IH|].
    rewrite <- (length_lag_diff n) at 1 2. apply has_shape_outer.
Qed.

Lemma has_shape_lag_covariance (alpha : T) (num : Z) :
  has_shape (nrows ref) (nrows ref)
    (lag_covariance gauss model ref t1_nstep ts drawn0 alpha num).
Proof.
  unfold lag_covariance, mdiv, mscale. do 2 apply has_shape_map.
  apply has_shape_lag_sum.
Qed.

End Shapes.

(** ** Symmetry *)

Section Symmetry.
Context {T : Type} `{Scalar T}.

Lemma row_length (r c : nat) (m : list (list T)) (i : nat) :
  has_shape r c m -> (i < r)%nat -> length (nth i m []) = c.
Proof.
  intros [Hl Hr] Hi. rewrite Forall_forall in Hr. apply Hr, nth_In. lia.
Qed.

Lemma entry_map (r c : nat) (f : T -> T) (m : list (list T)) (i j : nat) :
  has_shape r c m -> (i < r)%nat -> (j < c)%nat ->
  entry (map (map f) m) i j = f (entry m i j).
Proof.
  intros Hs Hi Hj. unfold entry.
  rewrite (nth_indep (map (map f) m) [] (map f [])) by (rewrite length_map; destruct Hs; lia).
  rewrite map_nth.
  rewrite (nth_indep (map f _) zero (f zero))
    by (rewrite length_map, (row_length r c m i Hs Hi); exact Hj).
  apply map_nth.
Qed.

Lemma nth_zip_with (f : T -> T -> T) : forall (u v : list T) (j : nat),
  (j < length u)%nat -> (j < length v)%nat ->
  nth j (zip_with f u v) zero = f (nth j u zero) (nth j v zero).
Proof.
  induction u as [|a u IH]; intros [|b v] [|j] Hu Hv; simpl in *; try lia.
  - reflexivity.
  - apply IH; lia.
Qed.

Lemma nth_madd : forall (a b : list (list T)) (i : nat),
  (i < length a)%nat -> (i < length b)%nat ->
  nth i (madd a b) [] = vadd (nth i a []) (nth i b []).
Proof.
  induction a as [|u a IH]; intros [|v b] [|i] Ha Hb; simpl in *; try lia.
  - reflexivity.
  - apply IH; lia.
Qed.

Lemma entry_madd (r c : nat) (a b : list (list T)) (i j : nat) :
  has_shape r c a -> has_shape r c b -> (i < r)%nat -> (j < c)%nat ->
  entry (madd a b) i j = fadd (entry a i j) (entry b i j).
Proof.
  intros Ha Hb Hi Hj. unfold entry.
  rewrite nth_madd by (destruct Ha, Hb; lia).
  apply nth_zip_with.
  - now rewrite (row_length r c a i Ha Hi).
  - now rewrite (row_length r c b i Hb Hi).
Qed.

Lemma entry_zeros (r c i j : nat) :
  (i < r)%nat -> (j < c)%nat -> entry (zeros r c) i j = zero.
Proof.
  intros Hi Hj. unfold entry, zeros.
  rewrite (nth_indep _ [] (repeat zero c)) by (rewrite repeat_length; lia).
  rewrite nth_repeat. apply nth_repeat.
Qed.

Lemma entry_outer (d : list T) (i j : nat) :
  (i < length d)%nat -> (j < length d)%nat ->
  entry (outer d) i j = fmul (nth i d zero) (nth j d zero).
Proof.
  intros Hi Hj. unfold entry, outer.
  rewrite (nth_indep _ [] ((fun a => map (fun b => fmul a b) d) zero))
    by (rewrite length_map; lia).
  rewrite (map_nth (fun a => map (fun b => fmul a b) d)).
  rewrite (nth_indep _ zero ((fun b => fmul (nth i d zero) b) zero))
    by (rewrite length_map; lia).
  apply (map_nth (fun b => fmul (nth i d zero) b)).
Qed.

Hypothesis fmul_comm : forall a b : T, fmul a b = fmul b a.

Lemma symmetric_outer (d : list T) : symmetric (length d) (outer d).
Proof.
  intros i j Hi Hj. rewrite !entry_outer by assumption. apply fmul_comm.
Qed.

Lemma symmetric_zeros (n : nat) : symmetric n (zeros n n).
Proof. intros i j Hi Hj. now rewrite !entry_zeros. Qed.

Lemma symmetric_madd (n : nat) (a b : list (list T)) :
  has_shape n n a -> has_shape n n b ->
  symmetric n a -> symmetric n b -> symmetric n (madd a b).
Proof.
  intros Ha Hb Sa Sb i j Hi Hj.
  rewrite !(entry_madd n n a b) by assumption.
  now rewrite (Sa i j), (Sb i j).
Qed.

Lemma symmetric_map (n : nat) (f : T -> T) (m : list (list T)) :
  has_shape n n m -> symmetric n m -> symmetric n (map (map f) m).
Proof.
  intros Hm Sm i j Hi Hj.
  rewrite !(entry_map n n f m) by assumption. now rewrite (Sm i j).
Qed.

Variable gauss : nat -> T.
Variable model : list T -> list T -> list (list T).
Variable ref : list (list T).
Variable t1_nstep : Z.
Variable ts : list T.
Variable drawn0 : nat.

Hypothesis Hmodel : forall x0, length x0 = nrows ref ->
  has_shape (nrows ref) (Z.to_nat (2 * t1_nstep)) (model x0 ts).

Lemma symmetric_lag_sum (n : nat) :
  symmetric (nrows ref) (lag_sum gauss model ref t1_nstep ts drawn0 n).
Proof.
  induction n as [|n IH]; cbn [lag_sum].
  - apply symmetric_zeros.
  - pose proof (length_lag_diff gauss model ref t1_nstep ts drawn0 Hmodel n) as Hd.
    apply symmetric_madd.
    + apply has_shape_lag_sum, Hmodel.
    + rewrite <- Hd at 1 2. apply has_shape_outer.
    + exact IH.
    + rewrite <- Hd. apply symmetric_outer.
Qed.

Lemma symmetric_lag_covariance (alpha : T) (num : Z) :
  symmetric (nrows ref) (lag_covariance gauss model ref t1_nstep ts drawn0 alpha num).
Proof.
  unfold lag_covariance, mdiv, mscale.
  apply symmetric_map; [apply has_shape_map, has_shape_lag_sum, Hmodel|].
  apply symmetric_map; [apply has_shape_lag_sum, Hmodel|].
  apply symmetric_lag_sum.
Qed.

End Symmetry.

Lemma SFmul_comm (x y : spec_float) : SFmul prec emax x y = SFmul prec emax y x.
Proof.
  destruct x as [sx|sx| |sx mx ex], y as [sy|sy| |sy my ey]; cbn [SFmul];
    try reflexivity; rewrite ?(xorb_comm sx sy); try reflexivity.
  now rewrite (Pos.mul_comm mx my), (Z.add_comm ex ey).
Qed.

Lemma float_mul_comm (a b : float) : PrimFloat.mul a b = PrimFloat.mul b a.
Proof.
  apply Prim2SF_inj. rewrite !mul_spec. apply SFmul_comm.
Qed.

Lemma Qmult_comm_eq (a b : Q) : Qmult a b = Qmult b a.
Proof.
  unfold Qmult. now rewrite (Z.mul_comm (Qnum a)), (Pos.mul_comm (Qden a)).
Qed.

(** ** Positive semidefiniteness, in exact arithmetic *)

Lemma dot_comm : forall u v : list Q, (dot u v == dot v u)%Q.
Proof.
  induction u as [|a u IH]; intros [|b v]; cbn [dot]; try reflexivity.
  rewrite IH. ring.
Qed.

Lemma dot_vadd : forall a b v : list Q,
  length a = length b -> (dot (vadd a b) v == dot a v + dot b v)%Q.
Proof.
  induction a as [|x a IH]; intros [|y b] [|z v] Hl; cbn in *; try discriminate;
    try ring.
  rewrite (IH b v) by lia. ring.
Qed.

Lemma dot_map_mul_l (k : Q) : forall a v : list Q,
  (dot (map (fun x => k * x) a) v == k * dot a v)%Q.
Proof.
  induction a as [|x a IH]; intros [|z v]; cbn [map dot]; try ring.
  rewrite IH. ring.
Qed.

Lemma dot_map_mul_r (c : Q) : forall u d : list Q,
  (dot u (map (fun x => x * c) d) == dot u d * c)%Q.
Proof.
  induction u as [|a u IH]; intros [|x d]; cbn [map dot]; try ring.
  rewrite IH. ring.
Qed.

Lemma dot_map_div_l (d : Q) : forall a v : list Q,
  (dot (map (fun x => x / d) a) v == dot a v / d)%Q.
Proof.
  induction a as [|x a IH]; intros [|z v]; cbn [map dot]; unfold Qdiv; try ring.
  rewrite IH. unfold Qdiv. ring.
Qed.

Lemma dot_ext : forall u l l' : list Q,
  Forall2 Qeq l l' -> (dot u l == dot u l')%Q.
Proof.
  induction u as [|a u IH]; intros l l' Hl; [reflexivity|].
  destruct Hl as [|x y l l' Hxy Hl]; cbn [dot]; [reflexivity|].
  rewrite Hxy, (IH l l' Hl). reflexivity.
Qed.

Lemma bilinear_zeros (u v : list Q) (r c : nat) : (bilinear u v (zeros r c) == 0)%Q.
Proof.
  unfold bilinear, zeros. revert u. induction r as [|r IH]; intros [|a u]; cbn [repeat map dot];
    try reflexivity.
  rewrite IH.
  assert (E : (dot (repeat zero c) v == 0)%Q).
  { clear. revert v. induction c as [|c IHc]; intros [|z v]; cbn [repeat dot];
      try reflexivity.
    rewrite IHc. cbn. ring. }
  rewrite E. ring.
Qed.

Lemma bilinear_madd (v : list Q) : forall (a b : list (list Q)) (u : list Q),
  Forall2 (fun x y => length x = length y) a b ->
  (bilinear u v (madd a b) == bilinear u v a + bilinear u v b)%Q.
Proof.
  unfold bilinear. induction a as [|x a IH]; intros b u Hab.
  - inversion Hab; subst. cbn. destruct u; cbn; ring.
  - inversion Hab as [|? y ? b' Hxy Hab']; subst. destruct u as [|c u].
    + cbn [dot]. ring.
    + cbn [madd map dot]. rewrite (IH b' u Hab'), (dot_vadd x y v Hxy). ring.
Qed.

Lemma same_shape_rows (r c : nat) : forall a b : list (list Q),
  has_shape r c a -> has_shape r c b ->
  Forall2 (fun x y => length x = length y) a b.
Proof.
  induction r as [|r IH]; intros [|x a] [|y b] [Ha Hra] [Hb Hrb]; simpl in *;
    try discriminate; constructor.
  - inversion Hra; inversion Hrb; subst; congruence.
  - inversion Hra; inversion Hrb; subst. apply IH; split; auto; lia.
Qed.

Lemma bilinear_mscale (k : Q) (u v : list Q) : forall m : list (list Q),
  (bilinear u v (mscale k m) == k * bilinear u v m)%Q.
Proof.
  unfold bilinear, mscale. revert u. intros u m. revert u.
  induction m as [|row m IH]; intros [|a u]; cbn [map dot]; try ring.
  rewrite IH. change (fun x : Q => fmul k x) with (fun x : Q => (k * x)%Q).
  rewrite dot_map_mul_l. ring.
Qed.

Lemma bilinear_mdiv (d : Q) (u v : list Q) : forall m : list (list Q),
  (bilinear u v (mdiv m d) == bilinear u v m / d)%Q.
Proof.
  unfold bilinear, mdiv. intros m. revert u.
  induction m as [|row m IH]; intros [|a u]; cbn [map dot]; unfold Qdiv; try ring.
  rewrite IH. change (fun x : Q => fdiv x d) with (fun x : Q => (x / d)%Q).
  rewrite dot_map_div_l. unfold Qdiv. ring.
Qed.

Lemma bilinear_outer (u v d : list Q) :
  (bilinear u v (outer d) == dot u d * dot d v)%Q.
Proof.
  unfold bilinear, outer. rewrite map_map.
  rewrite (dot_ext u _ (map (fun a => (a * dot d v)%Q) d)).
  - apply dot_map_mul_r.
  - apply Forall2_map_both. intros a.
    change (fun b : Q => fmul a b) with (fun b : Q => (a * b)%Q).
    apply dot_map_mul_l.
Qed.

Lemma Qsquare_nonneg (a : Q) : (0 <= a * a)%Q.
Proof. unfold Qle, Qmult. cbn [Qnum Qden]. nia. Qed.

Lemma psd_outer (d v : list Q) : (0 <= bilinear v v (outer d))%Q.
Proof.
  rewrite bilinear_outer, (dot_comm v d). apply Qsquare_nonneg.
Qed.

Section PSD_estimate.
Variable gauss : nat -> Q.
Variable model : list Q -> list Q -> list (list Q).
Variable ref : list (list Q).
Variable t1_nstep : Z.
Variable ts : list Q.
Variable drawn0 : nat.

Hypothesis Hmodel : forall x0, length x0 = nrows ref ->
  has_shape (nrows ref) (Z.to_nat (2 * t1_nstep)) (model x0 ts).

Lemma psd_lag_sum (n : nat) :
  psd (nrows ref) (lag_sum gauss model ref t1_nstep ts drawn0 n).
Proof.
  induction n as [|n IH]; intros v Hv; cbn [lag_sum].
  - rewrite bilinear_zeros. apply Qle_refl.
  - pose proof (length_lag_diff gauss model ref t1_nstep ts drawn0 Hmodel n) as Hd.
    rewrite bilinear_madd.
    + rewrite <- (Qplus_0_r 0). apply Qplus_le_compat; [apply IH, Hv|apply psd_outer].
    + apply (same_shape_rows (nrows ref) (nrows ref)).
      * apply has_shape_lag_sum, Hmodel.
      * rewrite <- Hd at 1 2. apply has_shape_outer.
Qed.

Lemma psd_lag_covariance (alpha : Q) (num : Z) :
  (0 < alpha)%Q -> 2 <= num ->
  psd (nrows ref) (lag_covariance gauss model ref t1_nstep ts drawn0 alpha num).
Proof.
  intros Halpha Hnum v Hv. unfold lag_covariance.
  rewrite bilinear_mdiv, bilinear_mscale.
  apply Qle_shift_div_l.
  - cbn [of_int Q_scalar]. unfold Qlt, inject_Z. cbn [Qnum Qden]. lia.
  - rewrite Qmult_0_l. apply Qmult_le_0_compat.
    + apply Qlt_le_weak, Halpha.
    + apply psd_lag_sum, Hv.
Qed.

End PSD_estimate.

(** ** Facts on the scenarios *)

Lemma stationary_shape {T : Type} (x0 ts : list T) :
  has_shape (length x0) (length ts) (stationary x0 ts).
Proof.
  unfold has_shape, stationary. split; [apply length_map|].
  apply Forall_forall. intros row Hin. apply in_map_iff in Hin as (x & <- & _).
  apply length_map.
Qed.

(** In exact arithmetic the scenario of C8 has three steps in [t1] and five
    segments. *)
Lemma nmc_steps_scenario_two_exact :
  nmc_steps ref20_Q (1 # 10)%Q (3 # 10)%Q = Ok (3, 5).
Proof. reflexivity. Qed.

(** ** C1 *)



(** The time grid can be one point longer than the comment of line 48 says:
    [6 * 0.1] is [0.6000000000000001] and [0.6000000000000001 / 0.1] is
    above [6], so that [np.arange] returns seven points.  With [dt = 0.1] and
    [t1 = 0.35] ([t1_nstep = 3], [num = 5]) a model that returns one state
    per time then fails the hypothesis on the segments, and line 50 raises
    [ValueError]. *)
Remark np_arange_one_point_longer :
  fmul (of_int (2 * 3)) 0.1%float = 0.6000000000000001%float /\
  np_arange zero (fmul (of_int (2 * 3)) 0.1%float) 0.1%float =
    Ok [0; 0.1; 0.2; 0.30000000000000004; 0.4; 0.5; 0.6000000000000001]%float /\
  nmc_steps ref20 0.1%float 0.35%float = Ok (3, 5) /\
  fst (nmc gauss_half stationary ref20 0.1%float 0.35%float 1%float fresh)
    = Raise ValueError.
Proof. repeat split; reflexivity. Qed.

(** ** C2 *)


Lemma nmc_steps_positive {T : Type} `{Scalar T}
  (ref : list (list T)) (dt t1 : T) (t1_nstep num : Z) :
  nmc_steps ref dt t1 = Ok (t1_nstep, num) -> 0 <= num -> 1 <= t1_nstep.
Proof.
  intros Hs Hnum. apply nmc_steps_inv in Hs as (Hc & _ & Hne & Heq).
  destruct (Z_lt_le_dec t1_nstep 1) as [Hlt|]; [|assumption].
  exfalso. assert (Hneg : t1_nstep < 0) by lia.
  pose proof (Z.div_mod (Z.of_nat (ncols ref)) t1_nstep Hne) as Hdm.
  pose proof (Z.mod_neg_bound (Z.of_nat (ncols ref)) t1_nstep Hneg) as Hb.
  nia.
Qed.



(** ** C3 *)

(** C3, as stated, fails on the code: with [dt = 1] and [t1 = 0.5] the call
    fails, before any draw or model call, but with [ZeroDivisionError]. *)
Lemma nmc_zero_steps_raises_ZeroDivisionError :
  py_int (0.5 / 1)%float = Ok 0 /\
  nmc gauss_half stationary ref20 1%float 0.5%float 1%float fresh
    = (Raise ZeroDivisionError, fresh) /\
  fst (nmc gauss_half stationary ref20 1%float 0.5%float 1%float fresh)
    <> Raise InvalidParameter.
Proof.
  repeat split; try reflexivity. vm_compute. discriminate.
Qed.

(** C3, amended.  When [t1_nstep = int(t1 / dt)] is [0] (and the reference
    has at least one time), the call fails with [ZeroDivisionError], raised
    by the floor division [length // t1_nstep]; the world is unchanged, so
    nothing was drawn and the model was not called. *)
Theorem nmc_zero_steps {T : Type} `{Scalar T}
  (gauss : nat -> T) (model : list T -> list T -> list (list T))
  (ref : list (list T)) (dt t1 alpha q : T) (w : world T) :
  (0 < ncols ref)%nat ->
  py_truediv t1 dt = Ok q ->
  py_int q = Ok 0 ->
  nmc gauss model ref dt t1 alpha w = (Raise ZeroDivisionError, w).
Proof.
  intros Hc Hq Hint. unfold nmc, bind, lift, nmc_steps.
  rewrite (col_nat 0 ref Hc). cbn [rbind]. rewrite Hq. cbn [rbind].
  rewrite Hint. reflexivity.
Qed.

Lemma nmc_zero_steps_witness :
  nmc gauss_half stationary ref20 1%float 0.5%float 1%float fresh
    = (Raise ZeroDivisionError, fresh).
Proof.
  apply (nmc_zero_steps gauss_half stationary ref20 1%float 0.5%float 1%float
           (0.5 / 1)%float fresh).
  - vm_compute. lia.
  - reflexivity.
  - reflexivity.
Defined.

(** ** C4 *)



(** ** C5 *)


(** ** C6 *)

(** C6, as stated, fails on the code: with [niter = 1] and
    [mean_ratio = 1.0] no iteration is averaged, and the call returns the
    matrix [[nan]]. *)
Lemma iterative_nmc_empty_window_returns_nan :
  fst (iterative_nmc gauss_half (mock_assim ref30) O [[2%float]] None 1 1%float fresh)
    = Ok [[nan]] /\
  fst (iterative_nmc gauss_half (mock_assim ref30) O [[2%float]] None 1 1%float fresh)
    <> Raise InsufficientIterations.
Proof.
  split; [reflexivity|]. vm_compute. discriminate.
Qed.

Lemma iter_loop_untouched {T : Type} `{Scalar T} {A : Type}
  (gauss : nat -> T) (ops : Assim T A) (a : A) (R : list (list T))
  (Pb_ini : option (list (list T))) (niter : Z) (mean_ratio : T)
  (w w' : world T) (s' : loop_state T A) :
  iter_loop gauss ops a R Pb_ini niter mean_ratio w = (Ok s', w') ->
  ls_count s' = 0 ->
  ls_Pb_result s' = ls_Pb_result (iter_init a R Pb_ini).
Proof.
  intros Hloop Hzero. unfold iter_loop, range in Hloop.
  apply foldM_iterations in Hloop.
  apply (iterations_untouched _ _ _ _ _ _ _ _ _ _ Hloop); cbn; auto; lia.
Qed.

Lemma float_zeros_over_zero (r c : nat) :
  mdiv (zeros r c) (of_int 0) = repeat (repeat nan c) r.
Proof.
  unfold mdiv, zeros. rewrite !map_repeat. reflexivity.
Qed.

(** C6, amended.  No [InsufficientIterations] exists.  When the loop ends
    with [count = 0], the call returns the accumulator, still zero, divided
    by zero: a matrix of the shape of the initial [Pb] with NaN in every
    entry. *)
Theorem iterative_nmc_empty_window {A : Type}
  (gauss : nat -> float) (ops : Assim float A) (a : A) (R : list (list float))
  (Pb_ini : option (list (list float))) (niter : Z) (mean_ratio : float)
  (w w' : world float) (s' : loop_state float A) :
  iter_loop gauss ops a R Pb_ini niter mean_ratio w = (Ok s', w') ->
  ls_count s' = 0 ->
  iterative_nmc gauss ops a R Pb_ini niter mean_ratio w =
  (Ok (let Pb := match Pb_ini with None => R | Some p => p end in
       repeat (repeat nan (ncols Pb)) (nrows Pb)), w').
Proof.
  intros Hloop Hzero.
  pose proof (iter_loop_untouched gauss ops a R Pb_ini niter mean_ratio w w' s' Hloop Hzero)
    as Hacc.
  unfold iterative_nmc, bind, ret. rewrite Hloop, Hacc, Hzero.
  cbn [iter_init ls_Pb_result]. now rewrite float_zeros_over_zero.
Qed.

Lemma iterative_nmc_empty_window_witness :
  fst (iterative_nmc gauss_half (mock_assim ref30) O [[2%float]] None 1 1%float fresh)
    = Ok [[nan]].
Proof.
  assert (E : exists s' w',
             iter_loop gauss_half (mock_assim ref30) O [[2%float]] None 1 1%float fresh
               = (Ok s', w') /\ ls_count s' = 0).
  { eexists _, _. split; [vm_compute; reflexivity | reflexivity]. }
  destruct E as (s' & w' & Hloop & Hzero).
  rewrite (iterative_nmc_empty_window gauss_half (mock_assim ref30) O [[2%float]] None
             1 1%float fresh w' s' Hloop Hzero).
  reflexivity.
Defined.

(** ** C7 *)

(** C7, as stated, fails on the code: with [mean_ratio = 0], outside
    [(0, 1]], the call runs its two assimilation cycles and four forecasts
    and returns a matrix; with [mean_ratio = 2] it does the same and returns
    [[nan]]. *)
Lemma iterative_nmc_mean_ratio_outside_returns :
  fst (iterative_nmc gauss_half (mock_assim ref30) O [[2%float]] None 2 0%float fresh)
    = Ok [[25%float]] /\
  fst (iterative_nmc gauss_half (mock_assim ref30) O [[2%float]] None 2 2%float fresh)
    = Ok [[nan]] /\
  drawn (snd (iterative_nmc gauss_half (mock_assim ref30) O [[2%float]] None 2 0%float fresh))
    = 4%nat /\
  fst (iterative_nmc gauss_half (mock_assim ref30) O [[2%float]] None 2 0%float fresh)
    <> Raise InvalidParameter.
Proof.
  repeat split; try reflexivity. vm_compute. discriminate.
Qed.

Lemma range_first (n : Z) :
  1 <= n -> range n = Z.of_nat 0 :: map Z.of_nat (seq 1 (Z.to_nat n - 1)).
Proof.
  intros Hn. unfold range. destruct (Z.to_nat n) as [|k] eqn:E; [lia|].
  cbn [seq map]. now rewrite Nat.sub_succ, Nat.sub_0_r.
Qed.

Lemma plain_not_InvalidParameter {A : Type} (r : outcome A) :
  plain r -> r <> Raise InvalidParameter.
Proof. intros Hp ->. discriminate Hp. Qed.

(** C7, amended.  [mean_ratio] is not validated.  Whatever its value, a call
    with [niter >= 1] starts by configuring the object with the initial [Pb]
    and running a cycle, and it never raises [InvalidParameter]. *)
Theorem iterative_nmc_mean_ratio_unchecked {T : Type} `{Scalar T} {A : Type}
  (gauss : nat -> T) (ops : Assim T A) (a : A) (R : list (list T))
  (Pb_ini : option (list (list T))) (niter : Z) (mean_ratio : T) (w : world T) :
  1 <= niter ->
  fst (iterative_nmc gauss ops a R Pb_ini niter mean_ratio w) <> Raise InvalidParameter /\
  exists l,
    trace (snd (iterative_nmc gauss ops a R Pb_ini niter mean_ratio w)) =
    trace w ++ EvSetParams (match Pb_ini with None => R | Some p => p end) :: EvCycle :: l.
Proof.
  intros Hn.
  set (model := assim_model ops a). set (dt := assim_dt ops a).
  set (s0 := iter_init a R Pb_ini).
  set (w2 := log EvCycle (log (EvSetParams (ls_Pb s0)) w)).
  set (rest := fun s1 : loop_state T A =>
                 s <- foldM (iter_body gauss ops model dt niter mean_ratio)
                        (map Z.of_nat (seq 1 (Z.to_nat niter - 1))) s1 ;;
                 ret (mdiv (ls_Pb_result s) (of_int (ls_count s)))).
  assert (Hrest : forall s1, tame (rest s1)).
  { intros s1. apply tame_bind; [|intros; apply tame_ret].
    apply tame_foldM. intros. apply tame_iter_body. }
  assert (Heq : iterative_nmc gauss ops a R Pb_ini niter mean_ratio w =
                bind (fun w' => iter_body gauss ops model dt niter mean_ratio
                                  (Z.of_nat 0) s0 w) rest w2).
  { unfold iterative_nmc, iter_loop. rewrite (range_first niter Hn). cbn [foldM].
    fold model dt s0. unfold bind, rest.
    destruct (iter_body gauss ops model dt niter mean_ratio (Z.of_nat 0) s0 w)
      as [[s1|e] w1]; reflexivity. }
  rewrite Heq. unfold bind.
  pose proof (tame_iter_body_rest gauss ops model dt niter mean_ratio (Z.of_nat 0) s0
                (cycle ops (set_params ops (ls_Pb s0) (ls_assim s0))) w2) as [Hp [l Hl]].
  change (iter_body gauss ops model dt niter mean_ratio (Z.of_nat 0) s0 w)
    with ((Pb <- nmc gauss model
                   (analysis ops (cycle ops (set_params ops (ls_Pb s0) (ls_assim s0))))
                   dt (fmul (of_int 10) dt) (of_int 1) ;;
           q <- lift (py_truediv (of_int (Z.of_nat 0)) (of_int niter)) ;;
           if fgtb q mean_ratio then
             Pb_result <- lift (iadd (ls_Pb_result s0) Pb) ;;
             ret {| ls_assim := cycle ops (set_params ops (ls_Pb s0) (ls_assim s0));
                    ls_Pb := Pb; ls_Pb_result := Pb_result;
                    ls_count := ls_count s0 + 1 |}
           else
             ret {| ls_assim := cycle ops (set_params ops (ls_Pb s0) (ls_assim s0));
                    ls_Pb := Pb; ls_Pb_result := ls_Pb_result s0;
                    ls_count := ls_count s0 |}) w2).
  match goal with |- context [match ?m w2 with _ => _ end] => destruct (m w2) as [[s1|e] w3] end;
    cbn [fst snd] in *.
  - destruct (Hrest s1 w3) as [Hp' [l' Hl']]. split.
    + apply plain_not_InvalidParameter, Hp'.
    + exists (l ++ l'). rewrite Hl', Hl. unfold w2, log. cbn [trace].
      rewrite <- !app_assoc. reflexivity.
  - split.
    + apply plain_not_InvalidParameter, Hp.
    + exists l. rewrite Hl. unfold w2, log. cbn [trace].
      rewrite <- !app_assoc. reflexivity.
Qed.

Lemma iterative_nmc_mean_ratio_unchecked_witness :
  fst (iterative_nmc gauss_half (mock_assim ref30) O [[2%float]] None 2 0%float fresh)
    <> Raise InvalidParameter /\
  exists l,
    trace (snd (iterative_nmc gauss_half (mock_assim ref30) O [[2%float]] None 2 0%float fresh)) =
    trace fresh ++ EvSetParams [[2%float]] :: EvCycle :: l.
Proof.
  apply (iterative_nmc_mean_ratio_unchecked gauss_half (mock_assim ref30) O [[2%float]] None
           2 0%float fresh).
  lia.
Defined.

(** ** C8 *)

(** C8: the code at the scenario.  [0.3 / 0.1] is [2.9999999999999996] in
    binary64 and [int] truncates it: the code finds [t1_nstep = 2] and
    [num = 20 // 2 - 1 = 9], it adds the outer products of [8] lag pairs and
    divides by [8]; the matrix it returns has shape [(1, 1)]. *)
Theorem nmc_scenario_two_truncates (gauss : nat -> float) (alpha : float) (w : world float) :
  py_truediv 0.3%float 0.1%float = Ok 2.9999999999999996%float /\
  nmc_steps ref20 0.1%float 0.3%float = Ok (2, 9) /\
  fst (nmc gauss stationary ref20 0.1%float 0.3%float alpha w) =
    Ok (mdiv (mscale alpha
                (lag_sum gauss stationary ref20 2
                   [0; 0.1; 0.2; 0.30000000000000004]%float (drawn w) 8))
             (of_int 8)) /\
  has_shape 1 1
    (mdiv (mscale alpha
             (lag_sum gauss stationary ref20 2
                [0; 0.1; 0.2; 0.30000000000000004]%float (drawn w) 8))
          (of_int 8)).
Proof.
  assert (Hmodel : forall x0 : list float, length x0 = nrows ref20 ->
            has_shape (nrows ref20) (Z.to_nat (2 * 2))
              (stationary x0 [0; 0.1; 0.2; 0.30000000000000004]%float)).
  { intros x0 Hx0. rewrite <- Hx0. apply (stationary_shape x0). }
  split; [reflexivity|]. split; [reflexivity|]. split.
  - rewrite (nmc_closed_form gauss stationary ref20 0.1%float 0.3%float alpha 2 9
               [0; 0.1; 0.2; 0.30000000000000004]%float w);
      [reflexivity | reflexivity | lia | lia | reflexivity | exact Hmodel].
  - apply (has_shape_lag_covariance gauss stationary ref20 2
             [0; 0.1; 0.2; 0.30000000000000004]%float (drawn w) Hmodel alpha 9).
Qed.

(** ** C9 *)

(** C9, as stated, fails on the code: with [alpha = 5] the call returns
    [1.6666666666666667], with [alpha = 1] it returns [0.33333333333333331],
    and five times the latter is [1.6666666666666665]. *)
Lemma nmc_scaling_differs_by_rounding :
  fst (nmc gauss_half stationary ref5 1%float 1%float 5%float fresh)
    = Ok [[1.6666666666666667%float]] /\
  fst (nmc gauss_half stationary ref5 1%float 1%float 1%float fresh)
    = Ok [[0.33333333333333331%float]] /\
  mscale 5%float [[0.33333333333333331%float]] = [[1.6666666666666665%float]] /\
  [[1.6666666666666667%float]] <> [[1.6666666666666665%float]].
Proof.
  repeat split; try reflexivity.
  intros E.
  apply (f_equal (fun m => match m with
                           | [[x]] => PrimFloat.ltb 1.6666666666666665%float x
                           | _ => false
                           end)) in E.
  vm_compute in E. discriminate.
Qed.

Lemma scaling_exact (k d : Q) (S : list (list Q)) :
  Forall2 (Forall2 Qeq) (mdiv (mscale k S) d) (mscale k (mdiv (mscale (of_int 1) S) d)).
Proof.
  unfold mdiv, mscale. rewrite !map_map.
  apply Forall2_map_both. intros row. rewrite !map_map.
  apply Forall2_map_both. intros x. cbn. unfold Qdiv. ring.
Qed.

(** C9, amended.  [alpha] enters only as a factor of the sum [S] of the outer
    products: in every arithmetic, binary64 included, the call returns
    [(alpha * S) / (num - 1)] with the same [S], the same draws and the same
    model calls for every [alpha].  In exact arithmetic this makes the
    estimate with [alpha = k] equal to [k] times the estimate with
    [alpha = 1], entry by entry; in binary64 the two agree up to the rounding
    of the last two operations. *)
Theorem nmc_alpha_final_factor :
  (forall (T : Type) (HS : Scalar T) (gauss : nat -> T)
          (model : list T -> list T -> list (list T)) (ref : list (list T))
          (dt t1 : T) (t1_nstep num : Z) (ts : list T) (w : world T),
     nmc_steps ref dt t1 = Ok (t1_nstep, num) ->
     1 <= t1_nstep -> 2 <= num ->
     np_arange zero (fmul (of_int (2 * t1_nstep)) dt) dt = Ok ts ->
     (forall x0, length x0 = nrows ref ->
        has_shape (nrows ref) (Z.to_nat (2 * t1_nstep)) (model x0 ts)) ->
     exists (S : list (list T)) (w' : world T), forall k : T,
       nmc gauss model ref dt t1 k w = (Ok (mdiv (mscale k S) (of_int (num - 1))), w')) /\
  (forall (gauss : nat -> Q) (model : list Q -> list Q -> list (list Q))
          (ref : list (list Q)) (dt t1 : Q) (t1_nstep num : Z) (ts : list Q) (w : world Q),
     nmc_steps ref dt t1 = Ok (t1_nstep, num) ->
     1 <= t1_nstep -> 2 <= num ->
     np_arange zero (fmul (of_int (2 * t1_nstep)) dt) dt = Ok ts ->
     (forall x0, length x0 = nrows ref ->
        has_shape (nrows ref) (Z.to_nat (2 * t1_nstep)) (model x0 ts)) ->
     forall k : Q, exists Mk M1 : list (list Q),
       fst (nmc gauss model ref dt t1 k w) = Ok Mk /\
       fst (nmc gauss model ref dt t1 (of_int 1) w) = Ok M1 /\
       Forall2 (Forall2 Qeq) Mk (mscale k M1)).
Proof.
  split.
  - intros T HS gauss model ref dt t1 t1_nstep num ts w Hsteps Ht1 Hnum Hgrid Hmodel.
    eexists _, _. intros k.
    rewrite (nmc_closed_form gauss model ref dt t1 k t1_nstep num ts w)
      by (auto; lia).
    unfold lag_covariance. reflexivity.
  - intros gauss model ref dt t1 t1_nstep num ts w Hsteps Ht1 Hnum Hgrid Hmodel k.
    eexists _, _.
    rewrite !(nmc_closed_form gauss model ref dt t1 _ t1_nstep num ts w)
      by (auto; lia).
    cbn [fst]. split; [reflexivity|]. split; [reflexivity|].
    unfold lag_covariance. apply scaling_exact.
Qed.

Lemma nmc_alpha_final_factor_witness :
  exists Mk M1 : list (list Q),
    fst (nmc gauss_half_Q stationary ref5_Q 1%Q 1%Q 5%Q fresh) = Ok Mk /\
    fst (nmc gauss_half_Q stationary ref5_Q 1%Q 1%Q (of_int 1) fresh) = Ok M1 /\
    Forall2 (Forall2 Qeq) Mk (mscale 5%Q M1).
Proof.
  refine (proj2 nmc_alpha_final_factor gauss_half_Q stationary ref5_Q 1%Q 1%Q 1 4
            [0; 1]%Q fresh _ _ _ _ _ 5%Q).
  - reflexivity.
  - lia.
  - lia.
  - reflexivity.
  - intros x0 Hx0. rewrite <- Hx0. apply (stationary_shape x0 [0; 1]%Q).
Defined.

(** ** C10 *)

(** C10, as stated, fails on the code: with [niter = 22] and
    [mean_ratio = 15/22] the loop averages [6] iterations, while
    [floor(mean_ratio * 22)] is [14], computed in binary64 or exactly, and
    the formula gives [22 - 1 - 14 = 7]: the quotient [15/22] of the loop is
    rounded to [mean_ratio] itself and is not above it. *)
Lemma iterative_nmc_count_rounding :
  (exists (s' : loop_state float nat) (w' : world float),
     iter_loop gauss_half (mock_assim ref30) O [[2%float]] None 22 (15 / 22)%float fresh
       = (Ok s', w') /\ ls_count s' = 6) /\
  ftrunc ((15 / 22) * 22)%float = IntOk 14 /\
  Qfloor (float_to_Q (15 / 22)%float * 22) = 14 /\
  Z.max 0 (22 - 1 - 14) = 7.
Proof.
  split; [|repeat split; reflexivity].
  eexists _, _. split; [vm_compute; reflexivity | reflexivity].
Qed.

Lemma length_filter_above (m : Z) (N : nat) :
  0 <= m ->
  length (filter (fun i => m <? i) (map Z.of_nat (seq 0 N))) = Z.to_nat (Z.of_nat N - 1 - m).
Proof.
  intros Hm. induction N as [|N IH].
  - cbn [seq map filter length]. lia.
  - rewrite seq_S, map_app, filter_app, length_app, IH. cbn [Nat.add map filter].
    destruct (Z.ltb_spec m (Z.of_nat N)); cbn [length]; lia.
Qed.

Lemma Q_gtb_quotient (i n : Z) (r : Q) :
  0 < n ->
  Q_gtb (inject_Z i / inject_Z n) r = (Qfloor (r * inject_Z n) <? i).
Proof.
  intros Hn.
  assert (HnQ : (0 < inject_Z n)%Q) by (unfold Qlt, inject_Z; cbn [Qnum Qden]; lia).
  assert (Hdiv : (inject_Z i / inject_Z n * inject_Z n == inject_Z i)%Q).
  { field. intros E. rewrite E in HnQ. now apply Qlt_irrefl in HnQ. }
  pose proof (Qlt_floor (r * inject_Z n)) as Hup.
  pose proof (Qfloor_le (r * inject_Z n)) as Hlow.
  remember (Qfloor (r * inject_Z n)) as f eqn:Hf.
  remember (r * inject_Z n)%Q as x eqn:Hx.
  unfold Q_gtb.
  destruct (Z.ltb_spec f i) as [Hlt|Hge].
  - apply negb_true_iff. apply not_true_iff_false. rewrite Qle_bool_iff.
    intros Hle. apply (Qmult_le_r _ _ _ HnQ) in Hle. rewrite Hdiv, <- Hx in Hle.
    assert (Hi : (inject_Z (f + 1) <= inject_Z i)%Q)
      by (unfold Qle, inject_Z; cbn [Qnum Qden]; lia).
    apply (Qlt_irrefl x).
    eapply Qlt_le_trans; [exact Hup|]. eapply Qle_trans; [exact Hi|exact Hle].
  - apply negb_false_iff. rewrite Qle_bool_iff.
    apply (Qmult_le_r _ _ _ HnQ). rewrite Hdiv, <- Hx.
    eapply Qle_trans; [|exact Hlow]. unfold Qle, inject_Z; cbn [Qnum Qden]; lia.
Qed.

Lemma averaged_exact (n : Z) (r : Q) :
  0 <= n -> (0 <= r)%Q ->
  Z.of_nat (length (averaged n r 0 (Z.to_nat n))) =
  Z.max 0 (n - 1 - Qfloor (r * inject_Z n)).
Proof.
  intros Hn Hr. destruct (Z.eq_dec n 0) as [->|Hne].
  - assert (E : Qfloor (r * inject_Z 0) = 0)
      by exact (Qfloor_comp _ _ (Qmult_0_r r)).
    rewrite E. reflexivity.
  - assert (Hpos : 0 < n) by lia.
    assert (Hfl : 0 <= Qfloor (r * inject_Z n)).
    { change 0 with (Qfloor 0). apply Qfloor_resp_le.
      apply Qmult_le_0_compat; [exact Hr|]. unfold Qle, inject_Z; cbn [Qnum Qden]; lia. }
    unfold averaged.
    rewrite (filter_ext _ (fun i => Qfloor (r * inject_Z n) <? i))
      by (intros i; apply (Q_gtb_quotient i n r Hpos)).
    rewrite length_filter_above by exact Hfl. lia.
Qed.

(** C10, amended.  The number of averaged iterations is the number of [i] in
    [0 .. niter - 1] whose quotient [i / niter] exceeds [mean_ratio].  With
    exact quotients, [niter >= 0] and [mean_ratio >= 0] it is
    [max(0, niter - 1 - floor(mean_ratio * niter))]; in binary64 the rounding
    of [i / niter] can make it smaller: with [niter = 22] and
    [mean_ratio = 15/22] the averaged iterations are [16, ..., 21].  With
    [niter = 50] and [mean_ratio = 0.5] the averaged iterations are
    [26, ..., 49]: [24] of them, fewer than [(1 - 0.5) * 50 = 25]. *)
Theorem iterative_nmc_averaged_count :
  (forall (T : Type) (HS : Scalar T) (A : Type) (gauss : nat -> T) (ops : Assim T A)
          (a : A) (R : list (list T)) (Pb_ini : option (list (list T)))
          (niter : Z) (mean_ratio : T) (w w' : world T) (s' : loop_state T A),
     iter_loop gauss ops a R Pb_ini niter mean_ratio w = (Ok s', w') ->
     ls_count s' = Z.of_nat (length (averaged niter mean_ratio 0 (Z.to_nat niter)))) /\
  (forall (niter : Z) (mean_ratio : Q),
     0 <= niter -> (0 <= mean_ratio)%Q ->
     Z.of_nat (length (averaged niter mean_ratio 0 (Z.to_nat niter))) =
     Z.max 0 (niter - 1 - Qfloor (mean_ratio * inject_Z niter))) /\
  averaged 50 0.5%float 0 (Z.to_nat 50) = map Z.of_nat (seq 26 24) /\
  (24 < (1 - (1 # 2)) * 50)%Q /\
  averaged 22 (15 / 22)%float 0 (Z.to_nat 22) = map Z.of_nat (seq 16 6).
Proof.
  split; [|split; [|split; [|split]]].
  - intros T HS A gauss ops a R Pb_ini niter mean_ratio w w' s' Hloop.
    unfold iter_loop, range in Hloop. apply foldM_iterations in Hloop.
    apply iterations_count in Hloop. cbn [fst iter_init ls_count] in Hloop.
    rewrite Hloop. lia.
  - exact averaged_exact.
  - reflexivity.
  - reflexivity.
  - reflexivity.
Qed.

Lemma iterative_nmc_averaged_count_witness :
  Z.of_nat (length (averaged 50 (1 # 2)%Q 0 (Z.to_nat 50))) =
  Z.max 0 (50 - 1 - Qfloor ((1 # 2) * inject_Z 50)).
Proof.
  refine (proj1 (proj2 iterative_nmc_averaged_count) 50 (1 # 2)%Q _ _).
  - lia.
  - discriminate.
Defined.


(** ** Further properties of nmc *)

Section Forecast_invariants.
Context {T : Type} `{Scalar T}.

Lemma mapR_Forall {A B : Type} (f : A -> outcome B) (P : B -> Prop) :
  (forall a b, f a = Ok b -> P b) ->
  forall (l : list A) (l' : list B), mapR f l = Ok l' -> Forall P l'.
Proof.
  intros Hf. induction l as [|a l IH]; intros l' Hl; cbn in Hl.
  - injection Hl as <-. constructor.
  - destruct (f a) as [b|e] eqn:Hb; [|discriminate]. cbn in Hl.
    destruct (mapR f l) as [bs|e]; [|discriminate]. cbn in Hl.
    injection Hl as <-. constructor; [eapply Hf, Hb|apply IH; reflexivity].
Qed.

Lemma mapR_length {A B : Type} (f : A -> outcome B) :
  forall (l : list A) (l' : list B), mapR f l = Ok l' -> length l' = length l.
Proof.
  induction l as [|a l IH]; intros l' Hl; cbn in Hl.
  - now injection Hl as <-.
  - destruct (f a) as [b|e]; [|discriminate]. cbn in Hl.
    destruct (mapR f l) as [bs|e]; [|discriminate]. cbn in Hl.
    injection Hl as <-. cbn. f_equal. now apply IH.
Qed.

Lemma broadcast_row_length (c : nat) (row row' : list T) :
  broadcast_row c row = Ok row' -> length row' = c.
Proof.
  unfold broadcast_row. destruct (Nat.eqb_spec (length row) c) as [Hl|Hl].
  - intros Heq; injection Heq as <-. exact Hl.
  - destruct row as [|x [|y row]]; try discriminate.
    intros Heq; injection Heq as <-. apply repeat_length.
Qed.

(** What is stored in a slot of [result] has the shape of the slot. *)
Lemma broadcast_to_shape (r c : nat) (m m' : list (list T)) :
  broadcast_to r c m = Ok m' -> has_shape r c m'.
Proof.
  unfold broadcast_to. destruct (mapR (broadcast_row c) m) as [rows|e] eqn:Hrows;
    [|discriminate]. cbn [rbind].
  pose proof (mapR_Forall (broadcast_row c) (fun row => length row = c)
                (broadcast_row_length c) m rows Hrows) as Hf.
  destruct (Nat.eqb_spec (length rows) r) as [Hl|Hl].
  - intros Heq; injection Heq as <-. split; assumption.
  - destruct rows as [|row [|row2 rows]]; try discriminate.
    intros Heq; injection Heq as <-. split; [apply repeat_length|].
    apply Forall_forall. intros x Hx. apply repeat_spec in Hx as ->.
    now inversion Hf.
Qed.

Lemma Forall_list_set {A : Type} (P : A -> Prop) (x : A) :
  forall (l : list A) (j : nat), Forall P l -> P x -> Forall P (list_set j x l).
Proof.
  induction l as [|a l IH]; intros j Hl Hx; [destruct j; constructor|].
  inversion Hl; subst. destruct j; cbn; constructor; auto.
Qed.

Lemma model_calls_app (l l' : list (event T)) :
  model_calls (l ++ l') = (model_calls l + model_calls l')%nat.
Proof. unfold model_calls. now rewrite filter_app, length_app. Qed.

Variable gauss : nat -> T.
Variable model : list T -> list T -> list (list T).
Variable ref : list (list T).
Variable dt : T.
Variable ndim : nat.
Variable t1_nstep : Z.

(** One turn of the forecast loop that does not raise: one more segment of
    the shape of its slot, [ndim] more samples, one more model call. *)
Lemma forecast_body_inv (i : Z) (result result' : list (list (list T))) (w w' : world T) :
  forecast_body gauss model ref dt ndim t1_nstep i result w = (Ok result', w') ->
  length result' = length result /\
  (Forall (has_shape ndim (Z.to_nat (2 * t1_nstep))) result ->
   Forall (has_shape ndim (Z.to_nat (2 * t1_nstep))) result') /\
  drawn w' = (drawn w + ndim)%nat /\
  model_calls (trace w') = S (model_calls (trace w)).
Proof.
  unfold forecast_body, bind, lift, randn, call_model, log.
  destruct (col (i * t1_nstep) ref) as [c|e]; [|discriminate].
  cbn [drawn trace].
  destruct (np_arange _ _ _) as [ts|e]; [|discriminate].
  destruct (broadcast_to _ _ _) as [seg|e] eqn:Hseg; [|discriminate].
  unfold set_item. destruct (py_index (length result) i) as [j|e]; [|discriminate].
  cbn [rbind]. intros Heq; injection Heq as <- <-. cbn [drawn trace].
  split; [apply length_list_set|]. split; [|split].
  - intros Hr. apply Forall_list_set; [exact Hr|]. eapply broadcast_to_shape, Hseg.
  - reflexivity.
  - rewrite !model_calls_app. cbn. lia.
Qed.

Lemma forecast_loop_inv (l : list Z) : forall (result result' : list (list (list T)))
  (w w' : world T),
  foldM (forecast_body gauss model ref dt ndim t1_nstep) l result w = (Ok result', w') ->
  length result' = length result /\
  (Forall (has_shape ndim (Z.to_nat (2 * t1_nstep))) result ->
   Forall (has_shape ndim (Z.to_nat (2 * t1_nstep))) result') /\
  drawn w' = (drawn w + length l * ndim)%nat /\
  model_calls (trace w') = (model_calls (trace w) + length l)%nat.
Proof.
  induction l as [|i l IH]; intros result result' w w' Hl; cbn [foldM] in Hl.
  - unfold ret in Hl. injection Hl as <- <-. cbn. repeat split; auto; lia.
  - unfold bind in Hl.
    destruct (forecast_body _ _ _ _ _ _ _ _ _) as [[r1|e] w1] eqn:Hb; [|discriminate].
    apply forecast_body_inv in Hb as (Hl1 & Hs1 & Hd1 & Hm1).
    apply IH in Hl as (Hl2 & Hs2 & Hd2 & Hm2).
    cbn [length]. repeat split; [congruence | auto | lia | lia].
Qed.

End Forecast_invariants.

Section Returned_matrix.
Context {T : Type} `{Scalar T}.

Lemma col_length (k : Z) (m : list (list T)) (v : list T) :
  col k m = Ok v -> length v = length m.
Proof.
  unfold col. destruct (py_index (ncols m) k) as [j|e]; [|discriminate].
  cbn [rbind]. intros Heq; injection Heq as <-. apply length_map.
Qed.

Lemma mapR_Forall_from {A B : Type} (f : A -> outcome B) (P : A -> Prop) (Q : B -> Prop) :
  (forall a b, P a -> f a = Ok b -> Q b) ->
  forall (l : list A) (l' : list B), Forall P l -> mapR f l = Ok l' -> Forall Q l'.
Proof.
  intros Hf. induction l as [|a l IH]; intros l' HP Hl; cbn [mapR] in Hl.
  - injection Hl as <-. constructor.
  - inversion HP as [|? ? Ha HP']; subst.
    destruct (f a) as [b|e] eqn:Hb; [|discriminate]. cbn [rbind] in Hl.
    destruct (mapR f l) as [bs|e] eqn:Hbs; [|discriminate]. cbn [rbind] in Hl.
    injection Hl as <-. constructor; [eapply Hf; eauto|apply IH; auto].
Qed.

Lemma lag_states_lengths (ndim c : nat) (t1_nstep : Z)
  (result : list (list (list T))) (states : list (list T * list T)) :
  Forall (has_shape ndim c) result ->
  lag_states t1_nstep result = Ok states ->
  Forall (fun p => length (fst p) = ndim /\ length (snd p) = ndim) states.
Proof.
  unfold lag_states. apply mapR_Forall_from.
  intros m [xs xl] [Hm _] Hp.
  destruct (col (t1_nstep - 1) m) as [xs'|e] eqn:Hxs; [|discriminate]. cbn [rbind] in Hp.
  destruct (col (2 * t1_nstep - 1) m) as [xl'|e] eqn:Hxl; [|discriminate]. cbn [rbind] in Hp.
  injection Hp as <- <-. cbn [fst snd].
  rewrite (col_length _ _ _ Hxs), (col_length _ _ _ Hxl). auto.
Qed.

Lemma In_removelast {A : Type} (x : A) : forall l : list A, In x (removelast l) -> In x l.
Proof.
  induction l as [|a [|b l] IH]; cbn; auto.
  intros [->|Hin]; [now left|right; apply IH, Hin].
Qed.

Lemma In_tl {A : Type} (x : A) (l : list A) : In x (tl l) -> In x l.
Proof. destruct l; cbn; auto. Qed.

Lemma lag_pairs_lengths (ndim : nat) (states : list (list T * list T)) :
  Forall (fun p => length (fst p) = ndim /\ length (snd p) = ndim) states ->
  Forall (fun p => length (fst p) = ndim /\ length (snd p) = ndim) (lag_pairs states).
Proof.
  intros Hs. rewrite Forall_forall in *. intros [xs xl] Hin. unfold lag_pairs in Hin.
  pose proof (in_combine_l _ _ _ _ Hin) as Hl.
  pose proof (in_combine_r _ _ _ _ Hin) as Hr.
  apply In_tl, in_map_iff in Hl as (p & Hp & Hinp).
  apply In_removelast, in_map_iff in Hr as (q & Hq & Hinq).
  cbn. split; [rewrite <- Hp; apply (Hs p Hinp)|rewrite <- Hq; apply (Hs q Hinq)].
Qed.

Lemma accumulate_shape (ndim : nat) (pairs : list (list T * list T)) :
  Forall (fun p => length (fst p) = ndim /\ length (snd p) = ndim) pairs ->
  has_shape ndim ndim (accumulate ndim pairs).
Proof.
  unfold accumulate. generalize (has_shape_zeros (T:=T) ndim ndim).
  generalize (zeros (T:=T) ndim ndim) as acc.
  induction pairs as [|p pairs IH]; intros acc Hacc Hp; cbn [fold_left]; [exact Hacc|].
  apply Forall_cons_iff in Hp as [[Hs Hl] Hp']. apply IH; [|exact Hp'].
  apply has_shape_madd; [exact Hacc|].
  assert (Hd : length (vsub (snd p) (fst p)) = ndim)
    by (unfold vsub; rewrite length_zip_with; lia).
  rewrite <- Hd at 1 2. apply has_shape_outer.
Qed.

Hypothesis fmul_comm : forall a b : T, fmul a b = fmul b a.

Lemma accumulate_symmetric (ndim : nat) (pairs : list (list T * list T)) :
  Forall (fun p => length (fst p) = ndim /\ length (snd p) = ndim) pairs ->
  symmetric ndim (accumulate ndim pairs).
Proof.
  unfold accumulate.
  generalize (has_shape_zeros (T:=T) ndim ndim) (symmetric_zeros (T:=T) ndim).
  generalize (zeros (T:=T) ndim ndim) as acc.
  induction pairs as [|p pairs IH]; intros acc Hacc Sacc Hp; cbn [fold_left];
    [exact Sacc|].
  apply Forall_cons_iff in Hp as [[Hs Hl] Hp'].
  assert (Hd : length (vsub (snd p) (fst p)) = ndim)
    by (unfold vsub; rewrite length_zip_with; lia).
  assert (Ho : has_shape ndim ndim (outer (vsub (snd p) (fst p))))
    by (rewrite <- Hd at 1 2; apply has_shape_outer).
  apply IH; [| |exact Hp'].
  - apply has_shape_madd; assumption.
  - apply symmetric_madd; try assumption.
    rewrite <- Hd. apply symmetric_outer, fmul_comm.
Qed.

End Returned_matrix.

Section NMC_inversion.
Context {T : Type} `{Scalar T}.

(** What a call that returns has gone through. *)
Lemma nmc_returns_inv (gauss : nat -> T) (model : list T -> list T -> list (list T))
  (ref : list (list T)) (dt t1 alpha : T) (w w' : world T) (Pb : list (list T)) :
  nmc gauss model ref dt t1 alpha w = (Ok Pb, w') ->
  exists (t1_nstep num : Z) (result : list (list (list T)))
         (states : list (list T * list T)),
    nmc_steps ref dt t1 = Ok (t1_nstep, num) /\
    0 <= num /\
    foldM (forecast_body gauss model ref dt (nrows ref) t1_nstep) (range num)
          (repeat (zeros (nrows ref) (Z.to_nat (2 * t1_nstep))) (Z.to_nat num)) w
      = (Ok result, w') /\
    lag_states t1_nstep result = Ok states /\
    Pb = mdiv (mscale alpha (accumulate (nrows ref) (lag_pairs states))) (of_int (num - 1)).
Proof.
  unfold nmc, bind, lift.
  destruct (nmc_steps ref dt t1) as [[t1_nstep num]|e] eqn:Hsteps; [|discriminate].
  unfold np_zeros3. destruct (Z.ltb_spec num 0) as [Hneg|Hnum]; [discriminate|].
  destruct (Z.ltb_spec (2 * t1_nstep) 0); [discriminate|]. cbn [orb].
  destruct (foldM _ _ _ _) as [[result|e] w1] eqn:Hloop; [|discriminate].
  destruct (lag_states t1_nstep result) as [states|e] eqn:Hstates; [|discriminate].
  unfold ret. intros Heq; injection Heq as <- <-.
  exists t1_nstep, num, result, states. repeat split; auto.
Qed.

End NMC_inversion.

Lemma length_range (n : Z) : length (range n) = Z.to_nat n.
Proof. unfold range. now rewrite length_map, length_seq. Qed.

(** Every matrix that [nmc] returns is [ndim x ndim] and symmetric, whatever
    the model returned and however few segments there were. *)
Theorem nmc_returns_square_symmetric
  (gauss : nat -> float) (model : list float -> list float -> list (list float))
  (ref : list (list float)) (dt t1 alpha : float) (w : world float)
  (Pb : list (list float)) :
  fst (nmc gauss model ref dt t1 alpha w) = Ok Pb ->
  has_shape (nrows ref) (nrows ref) Pb /\ symmetric (nrows ref) Pb.
Proof.
  destruct (nmc gauss model ref dt t1 alpha w) as [r w'] eqn:Hnmc. cbn [fst].
  intros ->. apply nmc_returns_inv in Hnmc
    as (t1_nstep & num & result & states & _ & _ & Hloop & Hstates & ->).
  apply forecast_loop_inv in Hloop as (_ & Hshape & _ & _).
  assert (Hres : Forall (has_shape (nrows ref) (Z.to_nat (2 * t1_nstep))) result).
  { apply Hshape, Forall_forall. intros m Hm. apply repeat_spec in Hm as ->.
    apply has_shape_zeros. }
  pose proof (lag_pairs_lengths _ _
                (lag_states_lengths _ _ _ _ _ Hres Hstates)) as Hpairs.
  pose proof (accumulate_shape _ _ Hpairs) as Hacc.
  split.
  - unfold mdiv, mscale. do 2 apply has_shape_map. exact Hacc.
  - unfold mdiv, mscale.
    apply symmetric_map; [apply has_shape_map, Hacc|].
    apply symmetric_map; [exact Hacc|].
    apply accumulate_symmetric; [exact float_mul_comm|exact Hpairs].
Qed.

Lemma nmc_returns_square_symmetric_witness :
  has_shape (nrows ref3) (nrows ref3)
    [[0.010000000000000002; 0.15000000000000002; -0.16000000000000003];
     [0.15000000000000002; 2.25; -2.4000000000000004];
     [-0.16000000000000003; -2.4000000000000004; 2.5600000000000005]]%float /\
  symmetric (nrows ref3)
    [[0.010000000000000002; 0.15000000000000002; -0.16000000000000003];
     [0.15000000000000002; 2.25; -2.4000000000000004];
     [-0.16000000000000003; -2.4000000000000004; 2.5600000000000005]]%float.
Proof.
  apply (nmc_returns_square_symmetric gauss_half stationary ref3 1%float 1%float 1%float
           fresh).
  reflexivity.
Defined.

(** A call of [nmc] that returns has drawn [num * ndim] samples and called
    the model [num] times, whatever the model returned. *)
Theorem nmc_returns_after_num_forecasts {T : Type} `{Scalar T}
  (gauss : nat -> T) (model : list T -> list T -> list (list T))
  (ref : list (list T)) (dt t1 alpha : T) (w w' : world T) (Pb : list (list T)) :
  nmc gauss model ref dt t1 alpha w = (Ok Pb, w') ->
  exists t1_nstep num : Z,
    nmc_steps ref dt t1 = Ok (t1_nstep, num) /\
    0 <= num /\
    drawn w' = (drawn w + Z.to_nat num * nrows ref)%nat /\
    model_calls (trace w') = (model_calls (trace w) + Z.to_nat num)%nat.
Proof.
  intros Hnmc. apply nmc_returns_inv in Hnmc
    as (t1_nstep & num & result & states & Hsteps & Hnum & Hloop & _ & _).
  apply forecast_loop_inv in Hloop as (_ & _ & Hd & Hm).
  rewrite length_range in Hd, Hm.
  exists t1_nstep, num. auto.
Qed.

Lemma nmc_returns_after_num_forecasts_witness :
  exists t1_nstep num : Z,
    nmc_steps ref20 0.1%float 0.3%float = Ok (t1_nstep, num) /\
    0 <= num /\
    drawn (snd (nmc gauss_half stationary ref20 0.1%float 0.3%float 1%float fresh))
      = (drawn (@fresh float) + Z.to_nat num * nrows ref20)%nat /\
    model_calls (trace (snd (nmc gauss_half stationary ref20 0.1%float 0.3%float 1%float fresh)))
      = (model_calls (trace (@fresh float)) + Z.to_nat num)%nat.
Proof.
  apply (nmc_returns_after_num_forecasts gauss_half stationary ref20
           0.1%float 0.3%float 1%float fresh _ [[0%float]]).
  vm_compute. reflexivity.
Defined.

(** ** Failures of nmc before and in the first forecast *)

(** A reference without any time makes [nmc] fail with [IndexError] at
    [ref[:,0]], before [t1 / dt] is looked at (so also when [dt] is zero)
    and before anything is drawn. *)
Theorem nmc_empty_reference {T : Type} `{Scalar T}
  (gauss : nat -> T) (model : list T -> list T -> list (list T))
  (ref : list (list T)) (dt t1 alpha : T) (w : world T) :
  ncols ref = 0%nat ->
  nmc gauss model ref dt t1 alpha w = (Raise IndexError, w).
Proof.
  intros Hc. unfold nmc, bind, lift, nmc_steps, col, py_index. rewrite Hc. reflexivity.
Qed.

Lemma nmc_empty_reference_witness :
  nmc gauss_half stationary ref_empty 0%float 1%float 1%float fresh
    = (Raise IndexError, fresh).
Proof.
  apply (nmc_empty_reference gauss_half stationary ref_empty 0%float 1%float 1%float fresh).
  reflexivity.
Defined.

Lemma nmc_steps_value {T : Type} `{Scalar T}
  (ref : list (list T)) (dt t1 q : T) (t1_nstep : Z) :
  (0 < ncols ref)%nat ->
  py_truediv t1 dt = Ok q ->
  py_int q = Ok t1_nstep ->
  t1_nstep <> 0 ->
  nmc_steps ref dt t1 = Ok (t1_nstep, Z.of_nat (ncols ref) / t1_nstep - 1).
Proof.
  intros Hc Hq Hint Hne. unfold nmc_steps.
  rewrite (col_nat 0 ref Hc). cbn [rbind]. rewrite Hq. cbn [rbind].
  rewrite Hint. cbn [rbind]. unfold py_floordiv.
  destruct (Z.eqb_spec t1_nstep 0); [contradiction|]. reflexivity.
Qed.

(** A window that is negative or longer than the reference ([t1_nstep < 0]
    or [t1_nstep > nt]) makes [nmc] fail with [ValueError], raised by
    [np.zeros], before anything is drawn and before any model call. *)
Theorem nmc_window_outside_reference {T : Type} `{Scalar T}
  (gauss : nat -> T) (model : list T -> list T -> list (list T))
  (ref : list (list T)) (dt t1 alpha q : T) (t1_nstep : Z) (w : world T) :
  (0 < ncols ref)%nat ->
  py_truediv t1 dt = Ok q ->
  py_int q = Ok t1_nstep ->
  t1_nstep < 0 \/ Z.of_nat (ncols ref) < t1_nstep ->
  nmc gauss model ref dt t1 alpha w = (Raise ValueError, w).
Proof.
  intros Hc Hq Hint Hout.
  assert (Hne : t1_nstep <> 0) by lia.
  unfold nmc, bind, lift.
  rewrite (nmc_steps_value ref dt t1 q t1_nstep Hc Hq Hint Hne).
  unfold np_zeros3.
  assert (Hneg : Z.of_nat (ncols ref) / t1_nstep - 1 < 0).
  { destruct Hout as [Hlt|Hgt].
    - pose proof (Z.div_mod (Z.of_nat (ncols ref)) t1_nstep Hne) as Hdm.
      pose proof (Z.mod_neg_bound (Z.of_nat (ncols ref)) t1_nstep Hlt) as Hb.
      nia.
    - rewrite Z.div_small by lia. lia. }
  apply Z.ltb_lt in Hneg. rewrite Hneg. reflexivity.
Qed.

Lemma nmc_window_outside_reference_witness :
  nmc gauss_half stationary ref5 1%float 6%float 1%float fresh = (Raise ValueError, fresh).
Proof.
  apply (nmc_window_outside_reference gauss_half stationary ref5 1%float 6%float 1%float
           (6 / 1)%float 6 fresh).
  - vm_compute. lia.
  - reflexivity.
  - reflexivity.
  - right. vm_compute. reflexivity.
Defined.

Section Grid_mismatch.
Context {T : Type} `{Scalar T}.

Lemma broadcast_to_mismatch (r c len : nat) (m : list (list T)) :
  has_shape r len m -> (0 < r)%nat -> len <> c -> len <> 1%nat ->
  broadcast_to r c m = Raise ValueError.
Proof.
  intros [Hr Hrows] Hpos Hc H1. destruct m as [|row m]; [cbn in Hr; lia|].
  apply Forall_cons_iff in Hrows as [Hrow _].
  unfold broadcast_to. cbn [mapR]. unfold broadcast_row at 1.
  destruct (Nat.eqb_spec (length row) c) as [E|_]; [congruence|].
  destruct row as [|x [|y row]]; cbn in Hrow; try reflexivity. congruence.
Qed.

(** When the time grid has neither [2 * t1_nstep] points nor a single one
    and the model returns one state per time of the grid, the first forecast
    cannot be stored: the call fails with [ValueError] after one draw of
    [ndim] samples and one model call. *)
Theorem nmc_grid_mismatch (gauss : nat -> T) (model : list T -> list T -> list (list T))
  (ref : list (list T)) (dt t1 alpha : T) (t1_nstep num : Z) (ts : list T) (w : world T) :
  nmc_steps ref dt t1 = Ok (t1_nstep, num) ->
  1 <= num ->
  np_arange zero (fmul (of_int (2 * t1_nstep)) dt) dt = Ok ts ->
  length ts <> Z.to_nat (2 * t1_nstep) ->
  length ts <> 1%nat ->
  (forall x0, length x0 = nrows ref -> has_shape (nrows ref) (length ts) (model x0 ts)) ->
  nmc gauss model ref dt t1 alpha w =
  (Raise ValueError,
   {| drawn := (drawn w + nrows ref)%nat;
      trace := trace w ++ [EvRandn (nrows ref);
                           EvModel (perturbed gauss ref t1_nstep (drawn w) 0) ts] |}).
Proof.
  intros Hsteps Hnum Hgrid Hlen Hone Hmodel.
  pose proof (nmc_steps_nonempty _ _ _ _ _ Hsteps) as Hndim.
  pose proof (nmc_steps_inv _ _ _ _ _ Hsteps) as (Hc & _ & _ & _).
  assert (Ht1 : 1 <= t1_nstep) by (apply (nmc_steps_positive ref dt t1 t1_nstep num); auto; lia).
  unfold nmc, bind, lift. rewrite Hsteps. unfold np_zeros3.
  replace (num <? 0) with false by (symmetry; apply Z.ltb_ge; lia).
  replace (2 * t1_nstep <? 0) with false by (symmetry; apply Z.ltb_ge; lia).
  cbn [orb]. rewrite (range_first num Hnum). cbn [foldM]. unfold bind.
  assert (Hbody : forall result,
            forecast_body gauss model ref dt (nrows ref) t1_nstep (Z.of_nat 0) result w =
            (Raise ValueError,
             {| drawn := (drawn w + nrows ref)%nat;
                trace := trace w ++ [EvRandn (nrows ref);
                                     EvModel (perturbed gauss ref t1_nstep (drawn w) 0) ts] |})).
  { intros result. unfold forecast_body, bind, lift, randn, call_model, log.
    change (Z.of_nat 0 * t1_nstep) with (Z.of_nat 0).
    rewrite (col_nat 0 ref Hc). rewrite Hgrid. cbn [drawn trace].
    assert (Hp : vadd (state_at 0 ref)
                   (vscale (map gauss (seq (drawn w) (nrows ref))) (np_mean (state_at 0 ref)))
                 = perturbed gauss ref t1_nstep (drawn w) 0).
    { unfold perturbed. cbn [Nat.mul]. now rewrite Nat.add_0_r. }
    rewrite Hp.
    rewrite (broadcast_to_mismatch (nrows ref) (Z.to_nat (2 * t1_nstep)) (length ts));
      auto.
    - now rewrite <- app_assoc.
    - apply Hmodel. rewrite <- Hp. unfold vadd, vscale.
      rewrite length_zip_with, length_state_at, !length_map, length_seq.
      unfold nrows. lia. }
  rewrite Hbody. reflexivity.
Qed.

End Grid_mismatch.

Lemma nmc_grid_mismatch_witness :
  nmc gauss_half stationary ref20 0.1%float 0.35%float 1%float fresh =
  (Raise ValueError,
   {| drawn := (drawn (@fresh float) + nrows ref20)%nat;
      trace := trace fresh ++
        [EvRandn (nrows ref20);
         EvModel (perturbed gauss_half ref20 3 (drawn (@fresh float)) 0)
           [0; 0.1; 0.2; 0.30000000000000004; 0.4; 0.5; 0.6000000000000001]%float] |}).
Proof.
  apply (nmc_grid_mismatch gauss_half stationary ref20 0.1%float 0.35%float 1%float 3 5).
  - reflexivity.
  - lia.
  - reflexivity.
  - vm_compute. lia.
  - vm_compute. lia.
  - intros x0 Hx0. rewrite <- Hx0. apply stationary_shape.
Defined.

(** ** What nmc reads of the reference *)

Section Reference_use.
Context {T : Type} `{Scalar T}.

Lemma foldM_ext {I S : Type} (body body' : I -> S -> M T S) :
  forall (l : list I) (s : S) (w : world T),
    (forall i s' w', In i l -> body i s' w' = body' i s' w') ->
    foldM body l s w = foldM body' l s w.
Proof.
  induction l as [|i l IH]; intros s w Hb; cbn [foldM]; [reflexivity|].
  unfold bind. rewrite (Hb i s w) by (now left).
  destruct (body' i s w) as [[s1|e] w1]; [|reflexivity].
  apply IH. intros j s' w' Hj. apply Hb. now right.
Qed.

Lemma nmc_steps_ncols (ref ref' : list (list T)) (dt t1 : T) :
  ncols ref = ncols ref' -> nmc_steps ref dt t1 = nmc_steps ref' dt t1.
Proof.
  intros Hc. unfold nmc_steps, col. rewrite <- Hc.
  destruct (py_index (ncols ref) 0); reflexivity.
Qed.

(** [nmc] reads the reference at the times [0, t1_nstep, 2 * t1_nstep, ...,
    (num - 1) * t1_nstep] only: two references of the same shape that agree
    at these times give the same outcome, the same draws and the same model
    calls. *)
Theorem nmc_reads_reference_at_multiples
  (gauss : nat -> T) (model : list T -> list T -> list (list T))
  (ref ref' : list (list T)) (dt t1 alpha : T) (w : world T) :
  nrows ref = nrows ref' ->
  ncols ref = ncols ref' ->
  (forall (t1_nstep num : Z) (i : nat),
     nmc_steps ref dt t1 = Ok (t1_nstep, num) ->
     (i < Z.to_nat num)%nat ->
     state_at (i * Z.to_nat t1_nstep) ref = state_at (i * Z.to_nat t1_nstep) ref') ->
  nmc gauss model ref dt t1 alpha w = nmc gauss model ref' dt t1 alpha w.
Proof.
  intros Hr Hc Hagree. unfold nmc, bind, lift.
  rewrite <- (nmc_steps_ncols ref ref' dt t1 Hc), <- Hr.
  destruct (nmc_steps ref dt t1) as [[t1_nstep num]|e] eqn:Hsteps; [|reflexivity].
  destruct (np_zeros3 num (nrows ref) (2 * t1_nstep)) as [result0|e] eqn:Hz;
    [|reflexivity].
  assert (Hnum : 0 <= num).
  { unfold np_zeros3 in Hz. destruct (Z.ltb_spec num 0); [discriminate|assumption]. }
  rewrite (foldM_ext (forecast_body gauss model ref dt (nrows ref) t1_nstep)
             (forecast_body gauss model ref' dt (nrows ref) t1_nstep)); [reflexivity|].
  intros i result w1 Hin. unfold range in Hin.
  apply in_map_iff in Hin as (k & <- & Hk). apply in_seq in Hk.
  pose proof (nmc_steps_positive ref dt t1 t1_nstep num Hsteps Hnum) as Ht1.
  pose proof (nmc_steps_inv _ _ _ _ _ Hsteps) as (_ & _ & _ & Hnumeq).
  assert (Hfit : Z.of_nat (k * Z.to_nat t1_nstep) < Z.of_nat (ncols ref)).
  { pose proof (Z.mul_div_le (Z.of_nat (ncols ref)) t1_nstep ltac:(lia)). nia. }
  unfold forecast_body, bind, lift.
  replace (Z.of_nat k * t1_nstep) with (Z.of_nat (k * Z.to_nat t1_nstep)) by nia.
  rewrite (col_nat _ ref) by lia.
  rewrite (col_nat _ ref') by (rewrite <- Hc; lia).
  rewrite (Hagree t1_nstep num k eq_refl) by lia.
  reflexivity.
Qed.

End Reference_use.

Lemma nmc_reads_reference_at_multiples_witness :
  nmc gauss_half stationary ref6 1%float 2%float 1%float fresh =
  nmc gauss_half stationary ref6' 1%float 2%float 1%float fresh.
Proof.
  apply (nmc_reads_reference_at_multiples gauss_half stationary ref6 ref6').
  - reflexivity.
  - reflexivity.
  - intros t1_nstep num i Hsteps Hi.
    assert (E : nmc_steps ref6 1%float 2%float = Ok (2, 2)) by reflexivity.
    rewrite E in Hsteps. injection Hsteps as <- <-.
    destruct i as [|[|i]]; [reflexivity|reflexivity|]. cbn in Hi. lia.
Defined.

(** ** The trace of a regular call *)

(** On valid inputs the call is a sequence of [num] forecasts: forecast [i]
    draws [ndim] samples and integrates the model, always on the same time
    grid, from the reference state at time [i * t1_nstep] plus these samples
    times the mean of the components of that state. *)
Theorem nmc_forecasts_in_order {T : Type} `{Scalar T}
  (gauss : nat -> T) (model : list T -> list T -> list (list T))
  (ref : list (list T)) (dt t1 alpha : T) (t1_nstep num : Z) (ts : list T) (w : world T) :
  nmc_steps ref dt t1 = Ok (t1_nstep, num) ->
  0 <= num ->
  np_arange zero (fmul (of_int (2 * t1_nstep)) dt) dt = Ok ts ->
  (forall x0, length x0 = nrows ref ->
     has_shape (nrows ref) (Z.to_nat (2 * t1_nstep)) (model x0 ts)) ->
  trace (snd (nmc gauss model ref dt t1 alpha w)) =
  trace w ++
  flat_map (fun i =>
              [EvRandn (nrows ref);
               EvModel (vadd (state_at (i * Z.to_nat t1_nstep) ref)
                          (vscale (map gauss (seq (drawn w + i * nrows ref) (nrows ref)))
                                  (np_mean (state_at (i * Z.to_nat t1_nstep) ref))))
                       ts])
           (seq 0 (Z.to_nat num)).
Proof.
  intros Hsteps Hnum Hgrid Hmodel.
  pose proof (nmc_steps_positive ref dt t1 t1_nstep num Hsteps Hnum) as Ht1.
  rewrite (nmc_closed_form gauss model ref dt t1 alpha t1_nstep num ts w) by auto.
  reflexivity.
Qed.

Lemma nmc_forecasts_in_order_witness :
  trace (snd (nmc gauss_half stationary ref6 1%float 2%float 1%float fresh)) =
  trace fresh ++
  flat_map (fun i =>
              [EvRandn (nrows ref6);
               EvModel (vadd (state_at (i * Z.to_nat 2) ref6)
                          (vscale (map gauss_half
                                     (seq (drawn (@fresh float) + i * nrows ref6) (nrows ref6)))
                                  (np_mean (state_at (i * Z.to_nat 2) ref6))))
                       [0; 1; 2; 3]%float])
           (seq 0 (Z.to_nat 2)).
Proof.
  apply (nmc_forecasts_in_order gauss_half stationary ref6 1%float 2%float 1%float 2 2
           [0; 1; 2; 3]%float fresh).
  - reflexivity.
  - lia.
  - reflexivity.
  - intros x0 Hx0. rewrite <- Hx0. apply (stationary_shape x0 [0; 1; 2; 3]%float).
Defined.

(** ** The matrix that iterative_nmc returns *)

Section Accumulator.
Context {T : Type} `{Scalar T}.

Lemma iadd_shape (r c : nat) (a b acc : list (list T)) :
  has_shape r c a -> iadd a b = Ok acc -> has_shape r c acc.
Proof.
  intros Ha. unfold iadd.
  destruct (broadcast_to (nrows a) (ncols a) b) as [b'|e] eqn:Hb; [|discriminate].
  cbn [rbind]. intros Heq; injection Heq as <-.
  apply broadcast_to_shape in Hb.
  destruct r as [|r].
  - destruct Ha as [Hl _]. destruct a; [|discriminate].
    split; [reflexivity|constructor].
  - assert (Hr : nrows a = S r) by apply Ha.
    rewrite (ncols_shape (S r) c a Ha) in Hb by lia. rewrite Hr in Hb.
    apply has_shape_madd; assumption.
Qed.

Variable gauss : nat -> T.
Context {A : Type}.
Variable ops : Assim T A.
Variable model : list T -> list T -> list (list T).
Variable dt : T.
Variable niter : Z.
Variable mean_ratio : T.

Lemma iteration_shape (r c : nat) (i : Z) (sw sw' : loop_state T A * world T) :
  iteration gauss ops model dt niter mean_ratio i sw sw' ->
  has_shape r c (ls_Pb_result (fst sw)) ->
  has_shape r c (ls_Pb_result (fst sw')).
Proof.
  intros Hit Hs. inversion Hit as [s w w' a1 a2 Pb acc q count _ _ _ _ Ht Hf]; subst.
  cbn [fst ls_Pb_result] in *.
  destruct (fgtb q mean_ratio).
  - destruct (Ht eq_refl) as [Hadd _]. eapply iadd_shape; eassumption.
  - destruct (Hf eq_refl) as [-> _]. exact Hs.
Qed.

Lemma iterations_shape (r c : nat) (k n : nat) (sw sw' : loop_state T A * world T) :
  iterations gauss ops model dt niter mean_ratio k n sw sw' ->
  has_shape r c (ls_Pb_result (fst sw)) ->
  has_shape r c (ls_Pb_result (fst sw')).
Proof.
  induction 1 as [k sw|k n sw sw' sw'' Hit Hrest IH]; intros Hs; [exact Hs|].
  apply IH. eapply iteration_shape; eassumption.
Qed.

End Accumulator.

(** What a call of [iterative_nmc] that returns has gone through. *)
Lemma iterative_nmc_iterations_inv {T : Type} `{Scalar T} {A : Type}
  (gauss : nat -> T) (ops : Assim T A) (a : A) (R : list (list T))
  (Pb_ini : option (list (list T))) (niter : Z) (mean_ratio : T)
  (w w' : world T) (P : list (list T)) :
  iterative_nmc gauss ops a R Pb_ini niter mean_ratio w = (Ok P, w') ->
  exists s' : loop_state T A,
    iterations gauss ops (assim_model ops a) (assim_dt ops a) niter mean_ratio
      0 (Z.to_nat niter) (iter_init a R Pb_ini, w) (s', w') /\
    P = mdiv (ls_Pb_result s') (of_int (ls_count s')).
Proof.
  unfold iterative_nmc, iter_loop, bind, ret, range.
  destruct (foldM _ _ _ _) as [[s'|e] w1] eqn:Hloop; [|discriminate].
  intros Heq; injection Heq as <- <-.
  exists s'. split; [|reflexivity]. apply foldM_iterations, Hloop.
Qed.

(** Whatever [iterative_nmc] returns has the shape of the initial [Pb]
    ([Pb_ini], or [R] when there is none), also when the estimates of [nmc]
    are of another shape and are broadcast into the accumulator. *)
Theorem iterative_nmc_returns_initial_shape {T : Type} `{Scalar T} {A : Type}
  (gauss : nat -> T) (ops : Assim T A) (a : A) (R : list (list T))
  (Pb_ini : option (list (list T))) (niter : Z) (mean_ratio : T)
  (w : world T) (P : list (list T)) :
  fst (iterative_nmc gauss ops a R Pb_ini niter mean_ratio w) = Ok P ->
  let Pb := match Pb_ini with None => R | Some p => p end in
  has_shape (nrows Pb) (ncols Pb) P.
Proof.
  destruct (iterative_nmc gauss ops a R Pb_ini niter mean_ratio w) as [r w'] eqn:Hcall.
  cbn [fst]. intros ->.
  apply iterative_nmc_iterations_inv in Hcall as (s' & Hit & ->).
  unfold mdiv. apply has_shape_map.
  apply (iterations_shape gauss ops _ _ niter mean_ratio _ _ _ _ _ _ Hit).
  cbn [fst iter_init ls_Pb_result]. apply has_shape_zeros.
Qed.

Lemma iterative_nmc_returns_initial_shape_witness :
  has_shape (nrows R3) (ncols R3)
    [[25; 25; 25]; [25; 25; 25]; [25; 25; 25]]%float.
Proof.
  apply (iterative_nmc_returns_initial_shape gauss_half (mock_assim ref30) O R3 None
           2 0%float fresh).
  reflexivity.
Defined.

Section Symmetric_average.
Context {T : Type} `{Scalar T}.
Hypothesis fmul_comm : forall a b : T, fmul a b = fmul b a.

Lemma nmc_square_symmetric
  (gauss : nat -> T) (model : list T -> list T -> list (list T))
  (ref : list (list T)) (dt t1 alpha : T) (w w' : world T) (Pb : list (list T)) :
  nmc gauss model ref dt t1 alpha w = (Ok Pb, w') ->
  has_shape (nrows ref) (nrows ref) Pb /\ symmetric (nrows ref) Pb.
Proof.
  intros Hnmc. apply nmc_returns_inv in Hnmc
    as (t1_nstep & num & result & states & _ & _ & Hloop & Hstates & ->).
  apply forecast_loop_inv in Hloop as (_ & Hshape & _ & _).
  assert (Hres : Forall (has_shape (nrows ref) (Z.to_nat (2 * t1_nstep))) result).
  { apply Hshape, Forall_forall. intros m Hm. apply repeat_spec in Hm as ->.
    apply has_shape_zeros. }
  pose proof (lag_pairs_lengths _ _
                (lag_states_lengths _ _ _ _ _ Hres Hstates)) as Hpairs.
  pose proof (accumulate_shape _ _ Hpairs) as Hacc.
  split.
  - unfold mdiv, mscale. do 2 apply has_shape_map. exact Hacc.
  - unfold mdiv, mscale.
    apply symmetric_map; [apply has_shape_map, Hacc|].
    apply symmetric_map; [exact Hacc|].
    apply accumulate_symmetric; [exact fmul_comm|exact Hpairs].
Qed.

Lemma entry_repeat (x : T) (r c i j : nat) :
  (i < r)%nat -> (j < c)%nat -> entry (repeat (repeat x c) r) i j = x.
Proof.
  intros Hi Hj. unfold entry.
  rewrite (nth_indep _ [] (repeat x c)) by (rewrite repeat_length; lia).
  rewrite nth_repeat.
  rewrite (nth_indep _ zero x) by (rewrite repeat_length; lia).
  apply nth_repeat.
Qed.

(** Broadcasting a square symmetric matrix to a square shape either leaves
    it as it is or spreads its only entry. *)
Lemma broadcast_to_symmetric (m n : nat) (b b' : list (list T)) :
  has_shape m m b -> symmetric m b -> broadcast_to n n b = Ok b' -> symmetric n b'.
Proof.
  intros Hb Sb Hbc.
  destruct (Nat.eq_dec m n) as [->|Hne].
  - rewrite (broadcast_to_id n n b Hb) in Hbc. injection Hbc as <-. exact Sb.
  - destruct Hb as [Hl Hrows]. destruct b as [|row b].
    + cbn in Hl. subst m. unfold broadcast_to in Hbc. cbn [mapR rbind length] in Hbc.
      destruct n; [congruence|discriminate].
    + apply Forall_cons_iff in Hrows as [Hrow Hrows].
      unfold broadcast_to in Hbc. cbn [mapR] in Hbc.
      unfold broadcast_row at 1 in Hbc.
      destruct (Nat.eqb_spec (length row) n) as [E|_]; [congruence|].
      destruct row as [|x [|y row]]; try discriminate Hbc.
      cbn in Hrow, Hl. destruct b; [|cbn in Hl; lia].
      cbn [mapR rbind length] in Hbc.
      destruct (Nat.eqb_spec 1 n) as [E|_]; [congruence|].
      injection Hbc as <-. intros i j Hi Hj. now rewrite !entry_repeat.
Qed.

Lemma iadd_symmetric (m n : nat) (a b acc : list (list T)) :
  has_shape n n a -> symmetric n a ->
  has_shape m m b -> symmetric m b ->
  iadd a b = Ok acc -> symmetric n acc.
Proof.
  intros Ha Sa Hb Sb. unfold iadd.
  destruct (broadcast_to (nrows a) (ncols a) b) as [b'|e] eqn:Hbc; [|discriminate].
  cbn [rbind]. intros Heq; injection Heq as <-.
  destruct n as [|n]; [intros i j Hi; lia|].
  assert (Hr : nrows a = S n) by apply Ha.
  rewrite (ncols_shape (S n) (S n) a Ha) in Hbc by lia. rewrite Hr in Hbc.
  apply symmetric_madd.
  - exact Ha.
  - eapply broadcast_to_shape, Hbc.
  - exact Sa.
  - eapply broadcast_to_symmetric; eassumption.
Qed.

Variable gauss : nat -> T.
Context {A : Type}.
Variable ops : Assim T A.
Variable model : list T -> list T -> list (list T).
Variable dt : T.
Variable niter : Z.
Variable mean_ratio : T.

Lemma iteration_symmetric (n : nat) (i : Z) (sw sw' : loop_state T A * world T) :
  iteration gauss ops model dt niter mean_ratio i sw sw' ->
  has_shape n n (ls_Pb_result (fst sw)) ->
  symmetric n (ls_Pb_result (fst sw)) ->
  symmetric n (ls_Pb_result (fst sw')).
Proof.
  intros Hit Hs Ss.
  inversion Hit as [s w w' a1 a2 Pb acc q count _ _ Hnmc _ Ht Hf]; subst.
  cbn [fst ls_Pb_result] in *.
  apply nmc_square_symmetric in Hnmc as [HPb SPb].
  destruct (fgtb q mean_ratio).
  - destruct (Ht eq_refl) as [Hadd _].
    eapply (iadd_symmetric _ n); [exact Hs|exact Ss|exact HPb|exact SPb|exact Hadd].
  - destruct (Hf eq_refl) as [-> _]. exact Ss.
Qed.

Lemma iterations_symmetric (n : nat) (k len : nat) (sw sw' : loop_state T A * world T) :
  iterations gauss ops model dt niter mean_ratio k len sw sw' ->
  has_shape n n (ls_Pb_result (fst sw)) ->
  symmetric n (ls_Pb_result (fst sw)) ->
  symmetric n (ls_Pb_result (fst sw')).
Proof.
  induction 1 as [k sw|k len sw sw' sw'' Hit Hrest IH]; intros Hs Ss; [exact Ss|].
  apply IH.
  - eapply iteration_shape; eassumption.
  - eapply iteration_symmetric; eassumption.
Qed.

End Symmetric_average.

(** With a square initial [Pb], whatever [iterative_nmc] returns is
    symmetric, exactly, in float64 too: every estimate of [nmc] is, and
    adding it to the accumulator, broadcast or not, and dividing by the
    count keep it so. *)
Theorem iterative_nmc_returns_symmetric {A : Type}
  (gauss : nat -> float) (ops : Assim float A) (a : A) (R : list (list float))
  (Pb_ini : option (list (list float))) (niter : Z) (mean_ratio : float)
  (w : world float) (P : list (list float)) (n : nat) :
  has_shape n n (match Pb_ini with None => R | Some p => p end) ->
  fst (iterative_nmc gauss ops a R Pb_ini niter mean_ratio w) = Ok P ->
  has_shape n n P /\ symmetric n P.
Proof.
  intros Hini.
  destruct (iterative_nmc gauss ops a R Pb_ini niter mean_ratio w) as [r w'] eqn:Hcall.
  cbn [fst]. intros ->.
  apply iterative_nmc_iterations_inv in Hcall as (s' & Hit & ->).
  set (Pb := match Pb_ini with None => R | Some p => p end) in *.
  assert (Hz : ls_Pb_result (iter_init a R Pb_ini) = zeros n n).
  { cbn [iter_init ls_Pb_result]. fold Pb. destruct n as [|n].
    - destruct Hini as [Hl _]. destruct Pb; [reflexivity|discriminate].
    - rewrite (ncols_shape (S n) (S n) Pb Hini) by lia.
      destruct Hini as [Hl _]. unfold nrows. now rewrite Hl. }
  assert (Hs : has_shape n n (ls_Pb_result s')).
  { apply (iterations_shape gauss ops _ _ niter mean_ratio _ _ _ _ _ _ Hit).
    cbn [fst]. rewrite Hz. apply has_shape_zeros. }
  split.
  - unfold mdiv. apply has_shape_map, Hs.
  - unfold mdiv. apply symmetric_map; [exact Hs|].
    change (ls_Pb_result s') with (ls_Pb_result (fst (s', w'))).
    eapply iterations_symmetric; [exact float_mul_comm|exact Hit| |].
    + cbn [fst]. rewrite Hz. apply has_shape_zeros.
    + cbn [fst]. rewrite Hz. apply symmetric_zeros.
Qed.

Lemma iterative_nmc_returns_symmetric_witness :
  has_shape 3 3 [[25; 25; 25]; [25; 25; 25]; [25; 25; 25]]%float /\
  symmetric 3 [[25; 25; 25]; [25; 25; 25]; [25; 25; 25]]%float.
Proof.
  apply (iterative_nmc_returns_symmetric gauss_half (mock_assim ref30) O R3 None
           2 0%float fresh).
  - vm_compute. repeat constructor.
  - reflexivity.
Defined.

(** ** The calls of iterative_nmc on the assimilation object *)

Section Hands_off.
Context {T : Type} `{Scalar T}.

Lemma assim_calls_app (l l' : list (event T)) :
  assim_calls (l ++ l') = assim_calls l ++ assim_calls l'.
Proof. apply filter_app. Qed.

Lemma hands_off_ret {B : Type} (b : B) : hands_off (T:=T) (ret b).
Proof. intros w. reflexivity. Qed.

Lemma hands_off_lift {B : Type} (r : outcome B) : hands_off (T:=T) (lift r).
Proof. intros w. reflexivity. Qed.

Lemma hands_off_bind {B C : Type} (m : M T B) (k : B -> M T C) :
  hands_off m -> (forall b, hands_off (k b)) -> hands_off (bind m k).
Proof.
  intros Hm Hk w. unfold bind. specialize (Hm w).
  destruct (m w) as [[b|e] w1]; cbn [snd] in *.
  - now rewrite (Hk b w1).
  - exact Hm.
Qed.

Lemma hands_off_foldM {I S : Type} (body : I -> S -> M T S) (l : list I) :
  (forall i s, hands_off (body i s)) -> forall s, hands_off (foldM body l s).
Proof.
  intros Hb. induction l as [|i l IH]; intros s; cbn [foldM].
  - apply hands_off_ret.
  - apply hands_off_bind; [apply Hb|exact IH].
Qed.

Variable gauss : nat -> T.

Lemma hands_off_randn (n : nat) : hands_off (randn gauss n).
Proof.
  intros w. unfold randn. cbn [snd trace].
  rewrite assim_calls_app. cbn. apply app_nil_r.
Qed.

Lemma hands_off_call_model (model : list T -> list T -> list (list T)) (x0 ts : list T) :
  hands_off (call_model model x0 ts).
Proof.
  intros w. unfold call_model, log. cbn [snd trace].
  rewrite assim_calls_app. cbn. apply app_nil_r.
Qed.

Lemma hands_off_forecast_body (model : list T -> list T -> list (list T))
  (ref : list (list T)) (dt : T) (ndim : nat) (t1_nstep i : Z)
  (result : list (list (list T))) :
  hands_off (forecast_body gauss model ref dt ndim t1_nstep i result).
Proof.
  unfold forecast_body.
  apply hands_off_bind; [apply hands_off_lift|]. intros c.
  apply hands_off_bind; [apply hands_off_randn|]. intros z.
  apply hands_off_bind; [apply hands_off_lift|]. intros ts.
  apply hands_off_bind; [apply hands_off_call_model|]. intros x_forecast.
  apply hands_off_bind; [apply hands_off_lift|]. intros seg.
  apply hands_off_lift.
Qed.

(** [nmc] forecasts only: it makes no call on the assimilation object. *)
Lemma hands_off_nmc (model : list T -> list T -> list (list T))
  (ref : list (list T)) (dt t1 alpha : T) :
  hands_off (nmc gauss model ref dt t1 alpha).
Proof.
  unfold nmc.
  apply hands_off_bind; [apply hands_off_lift|]. intros [t1_nstep num].
  apply hands_off_bind; [apply hands_off_lift|]. intros result0.
  apply hands_off_bind; [apply hands_off_foldM; intros; apply hands_off_forecast_body|].
  intros result.
  apply hands_off_bind; [apply hands_off_lift|]. intros states.
  apply hands_off_ret.
Qed.

Context {A : Type}.
Variable ops : Assim T A.
Variable model : list T -> list T -> list (list T).
Variable dt : T.
Variable niter : Z.
Variable mean_ratio : T.

Lemma iteration_assim_calls (i : Z) (sw sw' : loop_state T A * world T) :
  iteration gauss ops model dt niter mean_ratio i sw sw' ->
  assim_calls (trace (snd sw')) =
  assim_calls (trace (snd sw)) ++ [EvSetParams (ls_Pb (fst sw)); EvCycle].
Proof.
  intros Hit. inversion Hit as [s w w' a1 a2 Pb acc q count _ _ Hnmc _ _ _]; subst.
  cbn [fst snd].
  pose proof (hands_off_nmc model (analysis ops a2) dt (fmul (of_int 10) dt) (of_int 1)
                (log EvCycle (log (EvSetParams (ls_Pb s)) w))) as Hq.
  rewrite Hnmc in Hq. cbn [snd] in Hq. rewrite Hq.
  unfold log. cbn [trace]. rewrite !assim_calls_app. cbn.
  now rewrite <- app_assoc.
Qed.

Lemma iterations_assim_calls (k n : nat) (sw sw' : loop_state T A * world T) :
  iterations gauss ops model dt niter mean_ratio k n sw sw' ->
  exists Pbs : list (list (list T)),
    length Pbs = n /\
    assim_calls (trace (snd sw')) =
    assim_calls (trace (snd sw)) ++ flat_map (fun Pb => [EvSetParams Pb; EvCycle]) Pbs.
Proof.
  induction 1 as [k sw|k n sw sw' sw'' Hit Hrest (Pbs & Hlen & IH)].
  - exists []. split; [reflexivity|]. cbn. now rewrite app_nil_r.
  - exists (ls_Pb (fst sw) :: Pbs). split; [cbn; now rewrite Hlen|].
    rewrite IH, (iteration_assim_calls _ _ _ Hit). cbn [flat_map].
    now rewrite <- app_assoc.
Qed.

End Hands_off.

(** A call of [iterative_nmc] that returns has called, on the assimilation
    object, [set_params] and then [cycle], [niter] times in turn, and nothing
    else; the forecasts of [nmc] lie in between. *)
Theorem iterative_nmc_calls_in_turn {T : Type} `{Scalar T} {A : Type}
  (gauss : nat -> T) (ops : Assim T A) (a : A) (R : list (list T))
  (Pb_ini : option (list (list T))) (niter : Z) (mean_ratio : T)
  (w w' : world T) (P : list (list T)) :
  iterative_nmc gauss ops a R Pb_ini niter mean_ratio w = (Ok P, w') ->
  exists Pbs : list (list (list T)),
    length Pbs = Z.to_nat niter /\
    assim_calls (trace w') =
    assim_calls (trace w) ++ flat_map (fun Pb => [EvSetParams Pb; EvCycle]) Pbs.
Proof.
  intros Hcall. apply iterative_nmc_iterations_inv in Hcall as (s' & Hit & _).
  apply iterations_assim_calls in Hit. exact Hit.
Qed.

Lemma iterative_nmc_calls_in_turn_witness :
  exists Pbs : list (list (list float)),
    length Pbs = Z.to_nat 2 /\
    assim_calls
      (trace (snd (iterative_nmc gauss_half (mock_assim ref30) O [[2%float]] None
                     2 0%float fresh))) =
    assim_calls (trace (@fresh float)) ++
    flat_map (fun Pb => [EvSetParams Pb; EvCycle]) Pbs.
Proof.
  apply (iterative_nmc_calls_in_turn gauss_half (mock_assim ref30) O [[2%float]] None
           2 0%float fresh _ [[25%float]]).
  vm_compute. reflexivity.
Defined.

(** ** Edge cases of iterative_nmc *)

(** With [niter <= 0] the loop body never runs: nothing is drawn, the model
    and the assimilation object are not called, and the call returns the
    zero accumulator over the zero count, a matrix of NaN of the shape of the
    initial [Pb]. *)
Theorem iterative_nmc_no_iterations {A : Type}
  (gauss : nat -> float) (ops : Assim float A) (a : A) (R : list (list float))
  (Pb_ini : option (list (list float))) (niter : Z) (mean_ratio : float)
  (w : world float) :
  niter <= 0 ->
  iterative_nmc gauss ops a R Pb_ini niter mean_ratio w =
  (Ok (let Pb := match Pb_ini with None => R | Some p => p end in
       repeat (repeat nan (ncols Pb)) (nrows Pb)), w).
Proof.
  intros Hn. unfold iterative_nmc, iter_loop, range.
  replace (Z.to_nat niter) with 0%nat by lia.
  cbn [seq map foldM]. unfold bind, ret.
  cbn [iter_init ls_Pb_result ls_count]. now rewrite float_zeros_over_zero.
Qed.

Lemma iterative_nmc_no_iterations_witness :
  iterative_nmc gauss_half (mock_assim ref30) O R3 None (-1) 0.5%float fresh =
  (Ok [[nan; nan; nan]; [nan; nan; nan]; [nan; nan; nan]], fresh).
Proof.
  apply (iterative_nmc_no_iterations gauss_half (mock_assim ref30) O R3 None (-1)
           0.5%float fresh).
  lia.
Defined.

Section Short_analysis.
Context {T : Type} `{Scalar T}.

Lemma nmc_negative_num (gauss : nat -> T) (model : list T -> list T -> list (list T))
  (ref : list (list T)) (dt t1 alpha : T) (t1_nstep num : Z) (w : world T) :
  nmc_steps ref dt t1 = Ok (t1_nstep, num) -> num < 0 ->
  nmc gauss model ref dt t1 alpha w = (Raise ValueError, w).
Proof.
  intros Hsteps Hneg. unfold nmc, bind, lift. rewrite Hsteps.
  unfold np_zeros3. apply Z.ltb_lt in Hneg. rewrite Hneg. reflexivity.
Qed.

End Short_analysis.

(** The loop estimates with a window of [10 * dt].  Where that is ten steps
    ([int(10 * dt / dt)] is [10]), an analysis of fewer than ten times makes
    the first iteration fail: the call raises [ValueError] after one
    [set_params] and one [cycle], before any forecast. *)
Theorem iterative_nmc_short_analysis {T : Type} `{Scalar T} {A : Type}
  (gauss : nat -> T) (ops : Assim T A) (a : A) (R : list (list T))
  (Pb_ini : option (list (list T))) (niter : Z) (mean_ratio q : T) (w : world T) :
  1 <= niter ->
  py_truediv (fmul (of_int 10) (assim_dt ops a)) (assim_dt ops a) = Ok q ->
  py_int q = Ok 10 ->
  (0 < ncols (analysis ops (cycle ops (set_params ops
                (match Pb_ini with None => R | Some p => p end) a))) < 10)%nat ->
  iterative_nmc gauss ops a R Pb_ini niter mean_ratio w =
  (Raise ValueError,
   log EvCycle (log (EvSetParams (match Pb_ini with None => R | Some p => p end)) w)).
Proof.
  intros Hn Hq Hint Hcols.
  set (Pb := match Pb_ini with None => R | Some p => p end) in *.
  set (ref := analysis ops (cycle ops (set_params ops Pb a))) in *.
  assert (Hsteps : nmc_steps ref (assim_dt ops a) (fmul (of_int 10) (assim_dt ops a))
                   = Ok (10, -1)).
  { rewrite (nmc_steps_value ref _ _ q 10) by (auto; lia).
    rewrite Z.div_small by lia. reflexivity. }
  unfold iterative_nmc, iter_loop. rewrite (range_first niter Hn). cbn [foldM].
  unfold bind at 1 2. unfold iter_body at 1.
  unfold bind at 1, do_set_params at 1. unfold bind at 1, do_cycle at 1.
  cbn [iter_init ls_Pb ls_assim]. fold Pb. fold ref.
  unfold bind at 1.
  rewrite (nmc_negative_num gauss _ ref _ _ _ 10 (-1) _ Hsteps) by lia.
  reflexivity.
Qed.

Lemma iterative_nmc_short_analysis_witness :
  iterative_nmc gauss_half (mock_assim ref5) O R3 None 3 0%float fresh =
  (Raise ValueError, log EvCycle (log (EvSetParams R3) fresh)).
Proof.
  apply (iterative_nmc_short_analysis gauss_half (mock_assim ref5) O R3 None 3 0%float
           (10 * 1 / 1)%float fresh).
  - lia.
  - reflexivity.
  - reflexivity.
  - vm_compute. lia.
Defined.

(** ** What nmc uses of the forecasts *)

Section Forecast_use.
Context {T : Type} `{Scalar T}.
Variable gauss : nat -> T.
Variables model model' : list T -> list T -> list (list T).
Variable ref : list (list T).
Variable t1_nstep : Z.
Variable ts : list T.
Variable drawn0 : nat.

Hypothesis agree : forall x0, length x0 = nrows ref ->
  state_at (Z.to_nat (t1_nstep - 1)) (model x0 ts) =
  state_at (Z.to_nat (t1_nstep - 1)) (model' x0 ts) /\
  state_at (Z.to_nat (2 * t1_nstep - 1)) (model x0 ts) =
  state_at (Z.to_nat (2 * t1_nstep - 1)) (model' x0 ts).

Lemma lag_diff_agree (i : nat) :
  lag_diff gauss model ref t1_nstep ts drawn0 i =
  lag_diff gauss model' ref t1_nstep ts drawn0 i.
Proof.
  unfold lag_diff, segment.
  destruct (agree (perturbed gauss ref t1_nstep drawn0 i)) as [_ ->];
    [apply length_perturbed|].
  destruct (agree (perturbed gauss ref t1_nstep drawn0 (S i))) as [-> _];
    [apply length_perturbed|].
  reflexivity.
Qed.

Lemma lag_sum_agree (n : nat) :
  lag_sum gauss model ref t1_nstep ts drawn0 n =
  lag_sum gauss model' ref t1_nstep ts drawn0 n.
Proof.
  induction n as [|n IH]; cbn [lag_sum]; [reflexivity|].
  now rewrite IH, lag_diff_agree.
Qed.

End Forecast_use.

(** Of every forecast [nmc] uses two states only, those at the time indices
    [t1_nstep - 1] and [2 * t1_nstep - 1]: on valid inputs, two models whose
    forecasts agree at these two indices give the same estimate, the same
    draws and the same model calls. *)
Theorem nmc_uses_two_states_of_a_forecast {T : Type} `{Scalar T}
  (gauss : nat -> T) (model model' : list T -> list T -> list (list T))
  (ref : list (list T)) (dt t1 alpha : T) (t1_nstep num : Z) (ts : list T) (w : world T) :
  nmc_steps ref dt t1 = Ok (t1_nstep, num) ->
  0 <= num ->
  np_arange zero (fmul (of_int (2 * t1_nstep)) dt) dt = Ok ts ->
  (forall x0, length x0 = nrows ref ->
     has_shape (nrows ref) (Z.to_nat (2 * t1_nstep)) (model x0 ts) /\
     has_shape (nrows ref) (Z.to_nat (2 * t1_nstep)) (model' x0 ts)) ->
  (forall x0, length x0 = nrows ref ->
     state_at (Z.to_nat (t1_nstep - 1)) (model x0 ts) =
     state_at (Z.to_nat (t1_nstep - 1)) (model' x0 ts) /\
     state_at (Z.to_nat (2 * t1_nstep - 1)) (model x0 ts) =
     state_at (Z.to_nat (2 * t1_nstep - 1)) (model' x0 ts)) ->
  nmc gauss model ref dt t1 alpha w = nmc gauss model' ref dt t1 alpha w.
Proof.
  intros Hsteps Hnum Hgrid Hshape Hagree.
  pose proof (nmc_steps_positive ref dt t1 t1_nstep num Hsteps Hnum) as Ht1.
  rewrite (nmc_closed_form gauss model ref dt t1 alpha t1_nstep num ts w)
    by (auto; intros x0 Hx0; apply (Hshape x0 Hx0)).
  rewrite (nmc_closed_form gauss model' ref dt t1 alpha t1_nstep num ts w)
    by (auto; intros x0 Hx0; apply (Hshape x0 Hx0)).
  unfold lag_covariance.
  now rewrite (lag_sum_agree gauss model model' ref t1_nstep ts (drawn w) Hagree).
Qed.

Lemma nmc_uses_two_states_of_a_forecast_witness :
  nmc gauss_half stationary ref6 1%float 2%float 1%float fresh =
  nmc gauss_half alternating ref6 1%float 2%float 1%float fresh.
Proof.
  apply (nmc_uses_two_states_of_a_forecast gauss_half stationary alternating ref6
           1%float 2%float 1%float 2 2 [0; 1; 2; 3]%float fresh).
  - reflexivity.
  - lia.
  - reflexivity.
  - intros [|x [|y x0]] Hx0; try discriminate Hx0.
    split; (split; [reflexivity|repeat constructor]).
  - intros [|x [|y x0]] Hx0; try discriminate Hx0.
    split; reflexivity.
Defined.
